(** * go-pipe: a shallow embedding of [pipe.go] and its specification

    [pipe.go] chains functions with the [reflect] package: [New] and [Add]
    register functions, [Execute] calls them in order and feeds the results of
    one to the next.  The embedding has two layers:

    - [Reflect]: the part of Go's dynamic typing that [pipe.go] relies on
      (types, kinds, names, assignability, interface values, [reflect.Value],
      [Value.Call]), following the Go language specification and the
      documentation of package [reflect];
    - [Pipe]: [New], [Add] and [Execute], statement by statement.

    A run-time panic is an outcome of its own ([Panic]), distinct from a
    returned [error].  The mutex of [Pipe] serialises calls and has no effect
    on the result of a call taken alone; it is not modelled. *)

From Stdlib Require Import ZArith QArith.
From stdpp Require Import base numbers list strings.

Open Scope string_scope.
Open Scope list_scope.
Open Scope nat_scope.
Open Scope stdpp_scope.

(** ** Panics and the outcome of a computation that may panic *)

Inductive panic : Type :=
| NilTypeDereference        (* method call on the nil [reflect.Type] *)
| NumInOfNonFunc            (* "reflect: NumIn of non-func type" *)
| IndexOutOfRange
| ZeroValueUse              (* method call on the zero [reflect.Value] *)
| NilTypeToAssignableTo     (* "reflect: nil type passed to Type.AssignableTo" *)
| IsNilOfNonNillable        (* [Value.IsNil] on a kind that has no nil *)
| InterfaceConversion       (* failed type assertion [x.(error)] *)
| CallOfNilFunction         (* "reflect.Value.Call: call of nil function" *)
| CallTooFewArguments       (* "reflect: Call with too few input arguments" *)
| CallTooManyArguments      (* "reflect: Call with too many input arguments" *)
| CallZeroValueArgument     (* "reflect: Call using zero Value argument" *)
| CallNotAssignable (position : nat)  (* "reflect: Call using X as type Y" *)
| CallVariadicNotAssignable  (* "reflect: cannot use X as type Y in Call" *)
| StagePanic (msg : string).          (* raised by the called function itself *)

Inductive outcome (A : Type) : Type :=
| Ok (a : A)
| Panic (p : panic).
Arguments Ok {A} a.
Arguments Panic {A} p.

#[global] Instance outcome_ret : MRet outcome := fun _ a => Ok a.
#[global] Instance outcome_bind : MBind outcome := fun _ _ k m =>
  match m with
  | Ok a => k a
  | Panic p => Panic p
  end.

(** [for _, i := range idx { s = body(i, s) }], stopping at the first panic. *)
Fixpoint for_loop {St : Type} (idx : list nat) (body : nat -> St -> outcome St)
    (s : St) : outcome St :=
  match idx with
  | [] => Ok s
  | i :: rest => s' ← body i s; for_loop rest body s'
  end.

(** [for i := 0; i < n; i++ { s = body(i, s) }] *)
Definition for_range {St : Type} (n : nat) (body : nat -> St -> outcome St)
    (s : St) : outcome St :=
  for_loop (seq 0 n) body s.

(** [l[i]] with its bounds check. *)
Definition at_index {A : Type} (l : list A) (i : nat) : outcome A :=
  match l !! i with
  | Some x => Ok x
  | None => Panic IndexOutOfRange
  end.

Module Reflect.

(** *** Types *)

Inductive kind : Type :=
| KBool | KInt | KUint8 | KFloat64 | KString
| KSlice | KPointer | KInterface | KFunc.

#[global] Instance kind_eq_dec : EqDecision kind.
Proof. solve_decision. Defined.

(** The types of the data that flows between stages.  A method set is the list
    of its method names; the only interface method that matters to [pipe.go]
    is [Error() string].  A defined type lists the methods declared with a
    value receiver ([func (t T) M()]) and those declared with a pointer
    receiver ([func (t *T) M()]) apart.  The predeclared [error] is the
    defined type [TError] below.  Function types are not among them:
    functions are the stages (see [func]), not the data they exchange. *)
Inductive rtype : Type :=
| TBool | TInt | TUint8 | TFloat64 | TString
| TSlice (elem : rtype)
| TPtr (elem : rtype)
| TInterface (methods : list string)
| TDefined (pkg name : string) (under : rtype)
    (methods : list string) (ptr_methods : list string).

#[global] Instance rtype_eq_dec : EqDecision rtype.
Proof. solve_decision. Defined.

(** [interface{}] and the predeclared [error]. *)
Definition TAny : rtype := TInterface [].
Definition TError : rtype := TDefined "" "error" (TInterface ["Error"]) [] [].

(** [Type.Name]: the name of a predeclared or defined type, empty otherwise. *)
Definition Name (t : rtype) : string :=
  match t with
  | TBool => "bool"
  | TInt => "int"
  | TUint8 => "uint8"
  | TFloat64 => "float64"
  | TString => "string"
  | TSlice _ | TPtr _ | TInterface _ => ""
  | TDefined _ n _ _ _ => n
  end.

Definition hasName (t : rtype) : bool :=
  match t with
  | TSlice _ | TPtr _ | TInterface _ => false
  | _ => true
  end.

Fixpoint underlying (t : rtype) : rtype :=
  match t with
  | TDefined _ _ u _ _ => underlying u
  | _ => t
  end.

(** [Type.Kind] *)
Definition Kind (t : rtype) : kind :=
  match underlying t with
  | TBool => KBool
  | TInt => KInt
  | TUint8 => KUint8
  | TFloat64 => KFloat64
  | TString => KString
  | TSlice _ => KSlice
  | TPtr _ => KPointer
  | TInterface _ => KInterface
  | TDefined _ _ _ _ _ => KInterface (* not reached: [underlying] is not defined *)
  end.

(** The methods an interface type asks for. *)
Definition interface_methods (t : rtype) : list string :=
  match underlying t with
  | TInterface ms => ms
  | _ => []
  end.

(** The method set of a type, as the Go specification gives it: for a defined
    type [T] the methods declared with receiver [T] (and those of its
    underlying interface); for the pointer [*T] to a defined type that is
    neither a pointer nor an interface, the methods declared with receiver
    [*T] or [T]; for an interface its methods. *)
Definition method_set (t : rtype) : list string :=
  match t with
  | TDefined _ _ u ms _ => ms ++ interface_methods u
  | TInterface ms => ms
  | TPtr (TDefined _ _ u ms pms) =>
      match underlying u with
      | TInterface _ | TPtr _ => []
      | _ => ms ++ pms
      end
  | _ => []
  end.

(** [implements T V] of package reflect: [T] is an interface type and [V] has
    all its methods. *)
Definition implements (T V : rtype) : bool :=
  bool_decide (Kind T = KInterface) &&
  forallb (fun m => bool_decide (m ∈ method_set V)) (interface_methods T).

(** [directlyAssignable T V]: identical types, or identical underlying types
    when at most one of the two is named. *)
Definition directlyAssignable (T V : rtype) : bool :=
  bool_decide (T = V) ||
  (negb (hasName T && hasName V) &&
   bool_decide (Kind T = Kind V) &&
   bool_decide (underlying T = underlying V)).

(** [V.AssignableTo(T)] for a non-nil [T]. *)
Definition assignable (V T : rtype) : bool :=
  directlyAssignable T V || implements T V.

(** *** Values *)

#[warnings="-register-all"] Inductive data : Type :=
| DBool (b : bool)
| DInt (n : Z)
| DFloat64 (q : Q)
| DString (s : string)
| DNil                          (* the nil slice, pointer or interface *)
| DSlice (elems : list data)
| DPtr (addr : nat)
| DBoxed (t : rtype) (d : data). (* a non-nil interface held in a slice *)

(** A value together with its dynamic type, which is never an interface
    type. *)
Record concrete : Type := Concrete { ctype : rtype; cdata : data }.

(** A value of type [interface{}]: nil, or a boxed concrete value. *)
Abbreviation iface := (option concrete).

(** [reflect.TypeOf]; [None] is the nil [reflect.Type]. *)
Definition TypeOf (x : iface) : option rtype := ctype <$> x.

(** [Type.AssignableTo]: panics on a nil argument. *)
Definition AssignableTo (V : rtype) (u : option rtype) : outcome bool :=
  match u with
  | None => Panic NilTypeToAssignableTo
  | Some T => Ok (assignable V T)
  end.

(** [reflect.Value]: the zero Value, a value of a non-interface type, or the
    content of a variable of interface type [t] (a result slot of type
    [error], say), which may be nil. *)
Inductive Value : Type :=
| ZeroValue
| Val (t : rtype) (d : data)
| IfaceVal (t : rtype) (x : iface).

(** [reflect.ValueOf]: the zero Value for nil, else the boxed value. *)
Definition ValueOf (x : iface) : Value :=
  match x with
  | None => ZeroValue
  | Some c => Val (ctype c) (cdata c)
  end.

Definition zero_data (t : rtype) : data :=
  match Kind t with
  | KBool => DBool false
  | KInt | KUint8 => DInt 0
  | KFloat64 => DFloat64 0
  | KString => DString ""
  | KSlice | KPointer | KInterface | KFunc => DNil
  end.

(** [reflect.Zero] *)
Definition Zero (t : rtype) : Value :=
  if bool_decide (Kind t = KInterface) then IfaceVal t None
  else Val t (zero_data t).

Definition IsValid (v : Value) : bool :=
  match v with
  | ZeroValue => false
  | _ => true
  end.

(** [Value.Type] *)
Definition Type_ (v : Value) : outcome rtype :=
  match v with
  | ZeroValue => Panic ZeroValueUse
  | Val t _ | IfaceVal t _ => Ok t
  end.

(** [Value.Interface]: the value as an [interface{}]; for a Value of
    interface kind, the element inside the interface. *)
Definition Interface (v : Value) : outcome iface :=
  match v with
  | ZeroValue => Panic ZeroValueUse
  | Val t d => Ok (Some (Concrete t d))
  | IfaceVal _ x => Ok x
  end.

Definition is_DNil (d : data) : bool :=
  match d with
  | DNil => true
  | _ => false
  end.

(** The kinds that have a nil value. *)
Definition nillable (k : kind) : bool :=
  match k with
  | KSlice | KPointer | KInterface | KFunc => true
  | _ => false
  end.

(** [Value.IsNil]: defined on the kinds that have a nil only. *)
Definition IsNil (v : Value) : outcome bool :=
  match v with
  | ZeroValue => Panic ZeroValueUse
  | IfaceVal _ x => Ok (match x with None => true | Some _ => false end)
  | Val t d =>
      if nillable (Kind t) then Ok (is_DNil d)
      else Panic IsNilOfNonNillable
  end.

(** *** Functions and [Value.Call] *)

(** A function value: its signature ([Type.NumIn], [Type.In], [Type.Out],
    the variadic flag) and its code, [None] for the nil function of that
    type.  The code maps the argument Values to the result Values or panics.
    For a variadic function [func(a A, xs ...T)] the parameter types are
    [A] and [[]T], as [Type.In] reports them. *)
Record func : Type := Func {
  fn_in : list rtype;
  fn_out : list rtype;
  fn_variadic : bool;
  fn_code : option (list Value -> outcome (list Value))
}.

Definition NumIn (f : func) : nat := length (fn_in f).

(** [Type.In(j)]; out of range it panics. *)
Definition In (f : func) (j : nat) : outcome rtype :=
  at_index (fn_in f) j.

(** The element type [T] of the final parameter [...T] of a variadic
    function, [t.In(n).Elem()].  The compiler gives a variadic function a
    last parameter of slice type; the flag counts only then. *)
Definition variadic_elem (f : func) : option rtype :=
  match last (fn_in f) with
  | Some (TSlice elem) => if fn_variadic f then Some elem else None
  | _ => None
  end.

(** [Type.IsVariadic] *)
Definition IsVariadic (f : func) : bool :=
  match variadic_elem f with
  | Some _ => true
  | None => false
  end.

(** The check of [Value.Call] on argument [i] and those after it: its type
    must be assignable to the parameter's. *)
Fixpoint check_assignable (i : nat) (args : list Value) (params : list rtype)
    : outcome unit :=
  match args, params with
  | x :: args', targ :: params' =>
      xt ← Type_ x;
      if assignable xt targ then check_assignable (S i) args' params'
      else Panic (CallNotAssignable i)
  | _, _ => Ok tt
  end.

(** The check of [Value.Call] on the arguments that go into the slice of a
    variadic parameter: each must be assignable to the element type. *)
Fixpoint check_variadic (extra : list Value) (elem : rtype) : outcome unit :=
  match extra with
  | [] => Ok tt
  | x :: rest =>
      xt ← Type_ x;
      if assignable xt elem then check_variadic rest elem
      else Panic CallVariadicNotAssignable
  end.

(** [slice.Index(i).Set(x)]: the argument as an element of the slice, boxed
    when the element type is an interface. *)
Definition element_data (elem : rtype) (x : Value) : data :=
  match Interface x with
  | Ok (Some c) =>
      if bool_decide (Kind elem = KInterface) then DBoxed (ctype c) (cdata c)
      else cdata c
  | _ => DNil
  end.

(** The arguments a variadic function receives: the first [n] as they are,
    the others gathered in one slice of the final parameter's type. *)
Definition gather (n : nat) (elem : rtype) (args : list Value) : list Value :=
  take n args ++ [Val (TSlice elem) (DSlice (map (element_data elem) (drop n args)))].

(** The checks [Value.call] makes, in their order, before it transfers control
    to the function; they yield the code to run on the arguments.  For a
    variadic function the arguments from position [NumIn - 1] on are checked
    against the element type and the code receives them gathered. *)
Definition Call_checks (f : func) (args : list Value)
    : outcome (list Value -> outcome (list Value)) :=
  match fn_code f with
  | None => Panic CallOfNilFunction
  | Some code =>
      match variadic_elem f with
      | None =>
          if length args <? NumIn f then Panic CallTooFewArguments
          else if NumIn f <? length args then Panic CallTooManyArguments
          else if forallb IsValid args then
            _ ← check_assignable 0 args (fn_in f); Ok code
          else Panic CallZeroValueArgument
      | Some elem =>
          let n := NumIn f - 1 in
          if length args <? n then Panic CallTooFewArguments
          else if forallb IsValid args then
            _ ← check_assignable 0 (take n args) (take n (fn_in f));
            _ ← check_variadic (drop n args) elem;
            Ok (fun a => code (gather n elem a))
          else Panic CallZeroValueArgument
      end
  end.




End Reflect.

Import Reflect.

(** ** [pipe.go] *)

Module Pipe.

(** An [interface{}] handed to [New] or [Add], or stored in [Pipe.funcs]:
    nil, a value that is not a function, or a function. *)
Inductive object : Type :=
| Nil
| Data (c : concrete)
| Fn (f : func).

(** [reflect.TypeOf(f).Kind()]: a method call on the nil Type when [f] is
    nil. *)
Definition KindOf (f : object) : outcome kind :=
  match f with
  | Nil => Panic NilTypeDereference
  | Data c => Ok (Kind (ctype c))
  | Fn _ => Ok KFunc
  end.

(** The operand of a [%v] verb. *)
Inductive operand : Type :=
| OfType (ins outs : list rtype)   (* [fnType], printed as the signature *)
| OfFunc (f : func).               (* [fn], printed as the code pointer *)

(** The [error] values [pipe.go] returns: [errors.New(msg)],
    [fmt.Errorf(format, a)], and a stage's own error passed on. *)
Inductive error : Type :=
| errors_New (msg : string)
| fmt_Errorf (format : string) (a : operand)
| stage_error (c : concrete).

(** The names the specification gives them. *)
Definition NotCallable : error := errors_New "argument is not a function".
Definition ArityError (f : func) : error :=
  fmt_Errorf "not enough arguments for function %v" (OfType (fn_in f) (fn_out f)).
Definition ArgumentTypeError (f : func) : error :=
  fmt_Errorf "invalid arguments function %v" (OfFunc f).
Definition StageFailure (c : concrete) : error := stage_error c.

(** [type Pipe struct { funcs []interface{}; mux sync.Mutex }] *)
Record Pipe : Type := mkPipe { funcs : list object }.

(** A [[]interface{}]: [None] is the nil slice. *)
Definition slice : Type := option (list iface).

Definition elems (s : slice) : list iface := default [] s.
Definition len (s : slice) : nat := length (elems s).
Definition append (s : slice) (x : iface) : slice := Some (elems s ++ [x]).
Definition index (s : slice) (i : nat) : outcome iface :=
  at_index (elems s) i.

(** *** [New] *)

(** The loop of [New] over the remaining candidates, [p] being the Pipe built
    so far. *)
Fixpoint New_loop (fs : list object) (p : Pipe)
    : outcome (option Pipe * option error) :=
  match fs with
  | [] => Ok (Some p, None)
  | f :: rest =>
      k ← KindOf f;
      if bool_decide (k ≠ KFunc) then Ok (None, Some NotCallable)
      else New_loop rest (mkPipe (funcs p ++ [f]))
  end.

Definition New (fs : list object) : outcome (option Pipe * option error) :=
  New_loop fs (mkPipe []).

(** *** [Add]: the Pipe after the call and the error returned. *)
Definition Add (p : Pipe) (f : object) : outcome (Pipe * option error) :=
  k ← KindOf f;
  if bool_decide (k ≠ KFunc) then Ok (p, Some NotCallable)
  else Ok (mkPipe (funcs p ++ [f]), None).

(** *** [Execute] *)

(** [fnType.NumIn()], [fnType] being [reflect.TypeOf(fn)]. *)
Definition NumInOf (fn : object) : outcome func :=
  match fn with
  | Nil => Panic NilTypeDereference
  | Data _ => Panic NumInOfNonFunc
  | Fn f => Ok f
  end.

(** Lines 67-74: [in] is made of [numIn] zero Values, then slot [j] receives
    the Value of input [j], or the zero of the parameter type when the inputs
    are fewer. *)
Definition fill_in (f : func) (inputs : slice) : outcome (list Value) :=
  for_range (NumIn f)
    (fun j in_ =>
       if j <? len inputs then
         x ← index inputs j; Ok (<[j := ValueOf x]> in_)
       else
         t ← In f j; Ok (<[j := Zero t]> in_))
    (replicate (NumIn f) ZeroValue).

(** Line 83: [inputs[i] != nil &&
    reflect.TypeOf(inputs[i]).AssignableTo(reflect.TypeOf(in[i].Interface()))] *)
Definition matches (inputs : slice) (in_ : list Value) (i : nat)
    : outcome bool :=
  x ← index inputs i;
  match TypeOf x with
  | None => Ok false
  | Some V =>
      v ← at_index in_ i;
      y ← Interface v;
      AssignableTo V (TypeOf y)
  end.

(** Lines 80-87: [newIn] and the counter [j] after the loop. *)
Definition select (f : func) (inputs : slice) (in_ : list Value)
    : outcome (list Value * nat) :=
  for_range (NumIn f)
    (fun i (s : list Value * nat) =>
       let '(newIn, j) := s in
       b ← matches inputs in_ i;
       if b : bool then x ← index inputs i; Ok (<[i := ValueOf x]> newIn, S j)
       else Ok (newIn, j))
    (replicate (NumIn f) ZeroValue, 0).

(** Lines 67-92: the error returned before the call, or the arguments of the
    call. *)
Definition arguments (f : func) (inputs : slice)
    : outcome (error + list Value) :=
  in_ ← fill_in f inputs;
  if len inputs <? NumIn f then Ok (inl (ArityError f))
  else if NumIn f <? len inputs then
    '(newIn, j) ← select f inputs in_;
    if bool_decide (j ≠ NumIn f) then Ok (inl (ArgumentTypeError f))
    else Ok (inr newIn)
  else Ok (inr in_).

(** [o.Interface().(error)] *)
Definition assert_error (x : iface) : outcome concrete :=
  match x with
  | Some c => if implements TError (ctype c) then Ok c
              else Panic InterfaceConversion
  | None => Panic InterfaceConversion
  end.

(** Lines 98-106: the outputs after the loop, or the error it returns. *)
Fixpoint store (out : list Value) (outputs : slice)
    : outcome (slice + error) :=
  match out with
  | [] => Ok (inl outputs)
  | o :: rest =>
      if IsValid o then
        x ← Interface o;
        let outputs := append outputs x in
        t ← Type_ o;
        if bool_decide (Name t = "error") then
          isnil ← IsNil o;
          if negb isnil then
            x ← Interface o; c ← assert_error x; Ok (inr (stage_error c))
          else store rest outputs
        else store rest outputs
      else store rest outputs
  end.

(** One reflective call that reached the function's code. *)
Record invocation : Type := Invoke { callee : func; passed : list Value }.

(** How an iteration of the loop over [p.funcs] ends: it falls through to the
    next one with new [inputs] and [outputs], or [Execute] returns. *)
Inductive flow : Type :=
| Next (inputs outputs : slice)
| Return (res : slice) (err : option error).

(** The body of the loop, lines 63-110, with the calls it made. *)
Definition iteration (fn : object) (inputs outputs : slice)
    : list invocation * outcome flow :=
  match f ← NumInOf fn; a ← arguments f inputs; Ok (f, a) with
  | Panic p => ([], Panic p)
  | Ok (f, inl e) => ([], Ok (Return None (Some e)))
  | Ok (f, inr in_) =>
      match Call_checks f in_ with
      | Panic p => ([], Panic p)
      | Ok code =>
          ([Invoke f in_],
           out ← code in_;
           r ← store out outputs;
           match r with
           | inl outputs => Ok (Next outputs (Some []))
           | inr e => Ok (Return None (Some e))
           end)
      end
  end.

(** The loop over [p.funcs] and the final [return inputs, err]; [err] is still
    nil there. *)
Fixpoint loop (fs : list object) (inputs outputs : slice)
    : list invocation * outcome (slice * option error) :=
  match fs with
  | [] => ([], Ok (inputs, None))
  | fn :: rest =>
      let '(calls, r) := iteration fn inputs outputs in
      match r with
      | Ok (Next inputs outputs) =>
          let '(calls', r') := loop rest inputs outputs in
          (calls ++ calls', r')
      | Ok (Return res err) => (calls, Ok (res, err))
      | Panic p => (calls, Panic p)
      end
  end.

Definition run (p : Pipe) (args : slice)
    : list invocation * outcome (slice * option error) :=
  loop (funcs p) args None.

(** [p.Execute(args...)]: the outputs and the error, or a panic. *)
Definition Execute (p : Pipe) (args : slice) : outcome (slice * option error) :=
  snd (run p args).

(** The calls [p.Execute(args...)] makes, in order. *)
Definition invocations (p : Pipe) (args : slice) : list invocation :=
  fst (run p args).

(** *** The state of the loop when it reaches a stage *)

(** [inputs] and [outputs] after the stages [fs] have all run without a
    return or a panic; [None] when one of them ended the execution. *)
Fixpoint through (fs : list object) (inputs outputs : slice)
    : option (slice * slice) :=
  match fs with
  | [] => Some (inputs, outputs)
  | fn :: rest =>
      match snd (iteration fn inputs outputs) with
      | Ok (Next inputs outputs) => through rest inputs outputs
      | _ => None
      end
  end.

(** The calls made by the stages [fs]. *)
Definition calls_of (fs : list object) (inputs outputs : slice)
    : list invocation :=
  fst (loop fs inputs outputs).

End Pipe.

Import Pipe.

(** ** The functions of [pipe_test.go] *)

Module PipeTest.

(** Boxing of Go constants as [interface{}] arguments. *)
Definition int (n : Z) : iface := Some (Concrete TInt (DInt n)).
Definition float64 (q : Q) : iface := Some (Concrete TFloat64 (DFloat64 q)).
Definition str (s : string) : iface := Some (Concrete TString (DString s)).

(** [[]byte(s)] *)
Definition bytes_of (s : string) : data :=
  DSlice (map (fun a => DInt (Z.of_nat (Ascii.nat_of_ascii a)))
              (String.list_ascii_of_string s)).

(** The dynamic type of what [errors.New] returns, [*errors.errorString]; the
    struct [errorString], whose only field is the message, is represented by
    that field.  Its method [Error] has a pointer receiver. *)
Definition errorString : rtype :=
  TPtr (TDefined "errors" "errorString" TString [] ["Error"]).

(** [int(b)]: the float truncated towards zero. *)
Definition truncate (b : Q) : Z := Z.quot (Qnum b) (Zpos (Qden b)).

(** [fn1 := func(a int, b float64) (int, error)] *)
Definition fn1 : func :=
  Func [TInt; TFloat64] [TInt; TError] false
    (Some (fun args =>
       match args with
       | [Val _ (DInt a); Val _ (DFloat64 b)] =>
           if Qeq_bool b 0 then
             Ok [Val TInt (DInt 0);
                 IfaceVal TError
                   (Some (Concrete errorString (DString "division by zero")))]
           else if (truncate b =? 0)%Z then
             Panic (StagePanic "integer divide by zero")
           else Ok [Val TInt (DInt (Z.quot a (truncate b)));
                    IfaceVal TError None]
       | _ => Panic (StagePanic "ill-typed call")
       end)).

(** [fn2 := func(a int) string] *)
Definition fn2 : func :=
  Func [TInt] [TString] false
    (Some (fun args =>
       match args with
       | [Val _ (DInt a)] =>
           if (Z.rem a 2 =? 0)%Z then Ok [Val TString (DString "even")]
           else Ok [Val TString (DString "odd")]
       | _ => Panic (StagePanic "ill-typed call")
       end)).

(** [fn3 := func(s string) []byte] *)
Definition fn3 : func :=
  Func [TString] [TSlice TUint8] false
    (Some (fun args =>
       match args with
       | [Val _ (DString s)] => Ok [Val (TSlice TUint8) (bytes_of s)]
       | _ => Panic (StagePanic "ill-typed call")
       end)).

(** [p, _ := New(fn1, fn2); p.Add(fn3)] *)
Definition p : Pipe := mkPipe [Fn fn1; Fn fn2; Fn fn3].

(** A concrete named type with an [Error() string] method,
    [type MyErr string], and a function that returns a non-nil value of it
    beside a nil [error],
    [func(a int) (MyErr, error) { return MyErr("boom"), nil }]. *)
Definition MyErr : rtype := TDefined "main" "MyErr" TString ["Error"] [].

Definition fn_myerr : func :=
  Func [TInt] [MyErr; TError] false
    (Some (fun _ => Ok [Val MyErr (DString "boom"); IfaceVal TError None])).

(** A defined type of another package that takes the name [error],
    [type error int], and a function with a result of that type,
    [func(a int) (int, error) { return a, 0 }]. *)
Definition shadow_error : rtype := TDefined "main" "error" TInt [] [].

Definition fn_shadow : func :=
  Func [TInt] [TInt; shadow_error] false
    (Some (fun args =>
       match args with
       | [Val _ (DInt a)] => Ok [Val TInt (DInt a); Val shadow_error (DInt 0)]
       | _ => Panic (StagePanic "ill-typed call")
       end)).

(** The nil function value, [var fn_nil func(int) string]. *)
Definition fn_nil : func := Func [TInt] [TString] false None.

(** [fn_void := func() {}] *)
Definition fn_void : func := Func [] [] false (Some (fun _ => Ok [])).


(** A function with a parameter of type [error],
    [func(e error) string { return e.Error() }]. *)
Definition fn_msg : func :=
  Func [TError] [TString] false
    (Some (fun args =>
       match args with
       | [Val _ (DString m)] => Ok [Val TString (DString m)]
       | _ => Panic (StagePanic "ill-typed call")
       end)).

(** A variadic function,
    [func(xs ...int) int { s := 0; for _, x := range xs { s += x }; return s }]. *)
Definition fn_sum : func :=
  Func [TSlice TInt] [TInt] true
    (Some (fun args =>
       match args with
       | [Val _ (DSlice ds)] =>
           Ok [Val TInt
                 (DInt (foldr (fun d s => match d with
                                          | DInt n => (n + s)%Z
                                          | _ => s
                                          end) 0%Z ds))]
       | _ => Panic (StagePanic "ill-typed call")
       end)).

End PipeTest.

(** ** Notions the statements use *)

(** The [interface{}] the loop of lines 98-106 stores for each valid result,
    in order: [o.Interface()]. *)
Fixpoint threaded (out : list Value) : list iface :=
  match out with
  | [] => []
  | ZeroValue :: rest => threaded rest
  | Val t d :: rest => Some (Concrete t d) :: threaded rest
  | IfaceVal _ x :: rest => x :: threaded rest
  end.

(** [outputs = append(outputs, x)] for each [x] of [l]. *)
Definition append_all (outputs : slice) (l : list iface) : slice :=
  foldl append outputs l.

(** A result that does not stop the execution: its type is not named [error],
    or it is nil. *)
Definition silent (o : Value) : bool :=
  match o with
  | ZeroValue => true
  | IfaceVal t x => negb (bool_decide (Name t = "error")) || bool_decide (x = None)
  | Val t d =>
      negb (bool_decide (Name t = "error")) ||
      (nillable (Kind t) && is_DNil d)
  end.



(** The inputs [xs] are type-compatible with the parameter types [ts],
    position by position: non-nil and assignable. *)
Definition compatible (x : iface) (t : rtype) : bool :=
  match x with
  | None => false
  | Some c => assignable (ctype c) t
  end.

Definition all_compatible (xs : list iface) (ts : list rtype) : bool :=
  bool_decide (length xs = length ts) &&
  forallb (fun xt => compatible xt.1 xt.2) (zip xs ts).


(** Two outcomes of [Execute] that differ at most in returning the nil slice
    for the empty one: the same elements and the same error, or the same
    panic. *)
Definition same_result (r1 r2 : outcome (slice * option error)) : Prop :=
  match r1, r2 with
  | Ok (s1, e1), Ok (s2, e2) => elems s1 = elems s2 ∧ e1 = e2
  | Panic p1, Panic p2 => p1 = p2
  | _, _ => False
  end.

(** The stage an invocation ran, as it is stored in [Pipe.funcs]. *)
Definition stage_of (c : invocation) : object := Fn (callee c).

Definition is_function (fn : object) : bool :=
  match fn with
  | Fn _ => true
  | _ => false
  end.

(** ** The reflective layer *)

Section ReflectFacts.

Lemma assignable_refl (t : rtype) : assignable t t = true.
Proof.
  unfold assignable, directlyAssignable.
  by rewrite bool_decide_eq_true_2.
Qed.

(** Assignability is one-directional: [int] goes into an [interface{}], not
    the other way round. *)
Example assignable_one_way :
  assignable TInt TAny = true ∧ assignable TAny TInt = false.
Proof. split; reflexivity. Qed.

Example errorString_is_an_error :
  assignable PipeTest.errorString TError = true ∧
  assignable TString TError = false ∧
  assignable TString TInt = false.
Proof. repeat split; reflexivity. Qed.

Lemma ValueOf_valid (x : iface) : IsValid (ValueOf x) = bool_decide (x ≠ None).
Proof. by destruct x. Qed.

Lemma Interface_ValueOf (c : concrete) : Interface (ValueOf (Some c)) = Ok (Some c).
Proof. by destruct c. Qed.

End ReflectFacts.

(** ** Loops that fill a slice slot by slot *)

Section Loops.
Context {St : Type}.

(** An invariant [P i s] ("before iteration [i] the state is [s]") kept by a
    body that does not panic holds at the end of the loop. *)
Lemma for_loop_invariant (P : nat → St → Prop) (body : nat → St → outcome St)
    (m k : nat) (s : St) :
  P k s →
  (∀ i s, k ≤ i < k + m → P i s → ∃ s', body i s = Ok s' ∧ P (S i) s') →
  ∃ s', for_loop (seq k m) body s = Ok s' ∧ P (k + m) s'.
Proof.
  revert k s. induction m as [|m IH]; intros k s HP Hbody; simpl.
  - exists s. by rewrite Nat.add_0_r.
  - destruct (Hbody k s ltac:(lia) HP) as (s1 & -> & HP1). simpl.
    destruct (IH (S k) s1 HP1) as (s2 & Hs2 & HP2).
    + intros i s' Hi. apply Hbody. lia.
    + exists s2. split; [done|]. by replace (k + S m) with (S k + m) by lia.
Qed.

Lemma for_range_invariant (P : nat → St → Prop) (body : nat → St → outcome St)
    (n : nat) (s : St) :
  P 0 s →
  (∀ i s, i < n → P i s → ∃ s', body i s = Ok s' ∧ P (S i) s') →
  ∃ s', for_range n body s = Ok s' ∧ P n s'.
Proof.
  intros H0 Hbody. apply (for_loop_invariant P body n 0 s H0).
  intros i s' Hi. apply Hbody. lia.
Qed.

End Loops.

(** The first [i] slots hold the Values of the first [i] inputs, the others
    are still the zero Value. *)
Lemma filled_step (inps : list iface) (n i : nat) (x : iface) :
  i < n → inps !! i = Some x →
  <[i := ValueOf x]> (map ValueOf (take i inps) ++ replicate (n - i) ZeroValue)
  = map ValueOf (take (S i) inps) ++ replicate (n - S i) ZeroValue.
Proof.
  intros Hi Hx.
  assert (Hlen : length (map ValueOf (take i inps)) = i).
  { rewrite length_map, length_take. apply lookup_lt_Some in Hx. lia. }
  rewrite insert_app_r_alt by lia. rewrite Hlen, Nat.sub_diag.
  replace (n - i) with (S (n - S i)) by lia. simpl.
  rewrite (take_S_r _ _ _ Hx), map_app. simpl. by rewrite <- app_assoc.
Qed.

Lemma filled_skip (inps : list iface) (n i : nat) :
  i < n → inps !! i = Some None →
  map ValueOf (take i inps) ++ replicate (n - i) ZeroValue
  = map ValueOf (take (S i) inps) ++ replicate (n - S i) ZeroValue.
Proof.
  intros Hi Hx. rewrite <- (filled_step inps n i None Hi Hx).
  symmetry. apply list_insert_id.
  assert (Hlen : length (map ValueOf (take i inps)) = i).
  { rewrite length_map, length_take. apply lookup_lt_Some in Hx. lia. }
  rewrite lookup_app_r by lia. rewrite Hlen, Nat.sub_diag.
  by replace (n - i) with (S (n - S i)) by lia.
Qed.

Section Arguments.
Variable f : func.
Variable inputs : slice.

Lemma index_Some (i : nat) :
  i < len inputs → ∃ x, elems inputs !! i = Some x ∧ index inputs i = Ok x.
Proof.
  intros Hi. destruct (lookup_lt_is_Some_2 (elems inputs) i Hi) as [x Hx].
  exists x. split; [done|]. unfold index, at_index. by rewrite Hx.
Qed.

(** Lines 67-74 never panic. *)
Lemma fill_in_total : ∃ in_, fill_in f inputs = Ok in_.
Proof.
  destruct (for_range_invariant (fun _ l => length l = NumIn f)
    (fun j in_ =>
       if j <? len inputs then
         x ← index inputs j; Ok (<[j := ValueOf x]> in_)
       else t ← In f j; Ok (<[j := Zero t]> in_))
    (NumIn f) (replicate (NumIn f) ZeroValue)) as (l & Hl & _).
  - apply length_replicate.
  - intros i l Hi Hlen. destruct (i <? len inputs) eqn:E.
    + apply Nat.ltb_lt in E. destruct (index_Some i E) as (x & _ & ->).
      simpl. eexists. split; [done|]. by rewrite length_insert.
    + unfold In, at_index.
      destruct (lookup_lt_is_Some_2 (fn_in f) i Hi) as [t ->].
      simpl. eexists. split; [done|]. by rewrite length_insert.
  - by exists l.
Qed.

(** With enough inputs, [in] holds the Values of the first [numIn] of them. *)
Lemma fill_in_enough :
  NumIn f ≤ len inputs →
  fill_in f inputs = Ok (map ValueOf (take (NumIn f) (elems inputs))).
Proof.
  intros Hn.
  destruct (for_range_invariant
    (fun i l => l = map ValueOf (take i (elems inputs))
                    ++ replicate (NumIn f - i) ZeroValue)
    (fun j in_ =>
       if j <? len inputs then
         x ← index inputs j; Ok (<[j := ValueOf x]> in_)
       else t ← In f j; Ok (<[j := Zero t]> in_))
    (NumIn f) (replicate (NumIn f) ZeroValue)) as (l & Hl & HP).
  - by rewrite take_0, Nat.sub_0_r.
  - intros i l Hi ->.
    assert (E : i < len inputs) by lia.
    destruct (index_Some i E) as (x & Hx & ->).
    apply Nat.ltb_lt in E. rewrite E. simpl.
    eexists. split; [done|]. by apply filled_step.
  - unfold fill_in. rewrite Hl, HP, Nat.sub_diag. simpl. by rewrite app_nil_r.
Qed.

(** Line 83 on the [in] of the surplus case: the type of an input is compared
    with the type of that same input, so only the nil test decides. *)
Lemma matches_surplus (i : nat) (x : iface) :
  i < NumIn f → NumIn f ≤ len inputs →
  elems inputs !! i = Some x →
  matches inputs (map ValueOf (take (NumIn f) (elems inputs))) i
  = Ok (bool_decide (x ≠ None)).
Proof.
  intros Hi Hn Hx. unfold matches, index, at_index. rewrite Hx. simpl.
  destruct x as [c|]; simpl; [|done].
  rewrite list_lookup_fmap, lookup_take_lt by done. rewrite Hx. simpl.
  destruct c as [t d]. simpl. by rewrite assignable_refl.
Qed.

(** Lines 80-87 in the surplus case: [newIn] is [in] again, and [j] counts up
    to [numIn] exactly when none of the first [numIn] inputs is nil. *)
Lemma select_surplus :
  NumIn f ≤ len inputs →
  ∃ j, select f inputs (map ValueOf (take (NumIn f) (elems inputs)))
       = Ok (map ValueOf (take (NumIn f) (elems inputs)), j)
     ∧ (j = NumIn f ↔ Forall (fun x => x ≠ None) (take (NumIn f) (elems inputs))).
Proof.
  intros Hn.
  destruct (for_range_invariant
    (fun i (s : list Value * nat) =>
       s.1 = map ValueOf (take i (elems inputs))
               ++ replicate (NumIn f - i) ZeroValue
       ∧ s.2 ≤ i
       ∧ (s.2 = i ↔ Forall (fun x => x ≠ None) (take i (elems inputs))))
    (fun i (s : list Value * nat) =>
       let '(newIn, j) := s in
       b ← matches inputs (map ValueOf (take (NumIn f) (elems inputs))) i;
       if b : bool then x ← index inputs i; Ok (<[i := ValueOf x]> newIn, S j)
       else Ok (newIn, j))
    (NumIn f) (replicate (NumIn f) ZeroValue, 0)) as ([l j] & Hl & HP).
  - simpl. rewrite take_0, Nat.sub_0_r. split; [done|]. split; [lia|].
    split; [constructor | done].
  - intros i [l j] Hi (Hl & Hj & Hiff). simpl in Hl, Hj, Hiff. subst l.
    assert (E : i < len inputs) by lia.
    destruct (index_Some i E) as (x & Hx & Hidx).
    rewrite (matches_surplus i x Hi Hn Hx). simpl.
    destruct x as [c|].
    + rewrite bool_decide_eq_true_2 by done. rewrite Hidx. simpl.
      eexists. split; [done|]. simpl.
      split; [by apply (filled_step _ _ _ (Some c))|].
      split; [lia|].
      rewrite (take_S_r _ _ _ Hx), Forall_app, Forall_singleton. split.
      * intros Hj'. split; [apply Hiff; lia | done].
      * intros [Hall _]. apply Hiff in Hall. lia.
    + rewrite bool_decide_eq_false_2 by (intros H; by apply H).
      eexists. split; [done|]. simpl. split; [by apply filled_skip|].
      split; [lia|].
      rewrite (take_S_r _ _ _ Hx), Forall_app, Forall_singleton.
      split; [lia|]. by intros [_ H].
  - simpl in HP. destruct HP as (-> & _ & Hiff).
    exists j. unfold select. rewrite Hl, Nat.sub_diag. simpl.
    by rewrite app_nil_r.
Qed.

(** Deficit: the error of line 77. *)
Lemma arguments_deficit :
  len inputs < NumIn f → arguments f inputs = Ok (inl (ArityError f)).
Proof.
  intros Hlt. unfold arguments. destruct fill_in_total as [in_ ->]. simpl.
  apply Nat.ltb_lt in Hlt. by rewrite Hlt.
Qed.

(** Exact arity: the inputs as they are, unchecked. *)
Lemma arguments_exact :
  len inputs = NumIn f →
  arguments f inputs = Ok (inr (map ValueOf (elems inputs))).
Proof.
  intros Heq. unfold arguments. rewrite fill_in_enough by lia. simpl.
  rewrite <- Heq, Nat.ltb_irrefl. unfold len. by rewrite firstn_all.
Qed.

(** Surplus: the first [numIn] inputs when none of them is nil, the error of
    line 89 otherwise; the parameter types play no part. *)
Lemma arguments_surplus :
  NumIn f < len inputs →
  arguments f inputs =
    if forallb (fun x => bool_decide (x ≠ None)) (take (NumIn f) (elems inputs))
    then Ok (inr (map ValueOf (take (NumIn f) (elems inputs))))
    else Ok (inl (ArgumentTypeError f)).
Proof.
  intros Hlt. unfold arguments. rewrite fill_in_enough by lia. simpl.
  destruct (NumIn f <? len inputs) eqn:E1; [|apply Nat.ltb_ge in E1; lia].
  destruct (len inputs <? NumIn f) eqn:E2; [apply Nat.ltb_lt in E2; lia|].
  destruct select_surplus as (j & -> & Hiff); [lia|]. simpl.
  destruct (forallb _ _) eqn:Hall.
  - rewrite bool_decide_eq_false_2; [done|]. intros Hne. apply Hne, Hiff.
    apply Forall_forall. intros x Hx.
    rewrite forallb_forall in Hall. apply list_elem_of_In in Hx.
    by apply (bool_decide_eq_true_1 (x ≠ None)), Hall.
  - rewrite bool_decide_eq_true_2; [done|]. intros Hj. apply Hiff in Hj.
    apply not_true_iff_false in Hall. apply Hall, forallb_forall.
    intros x Hx. apply bool_decide_eq_true_2.
    rewrite Forall_forall in Hj. apply Hj. by apply list_elem_of_In.
Qed.

End Arguments.

(** ** Storing the results, lines 98-106 *)

Lemma store_silent_prefix (l1 l2 : list Value) (outputs : slice) :
  forallb silent l1 = true →
  store (l1 ++ l2) outputs = store l2 (append_all outputs (threaded l1)).
Proof.
  revert outputs. induction l1 as [|o l1 IH]; intros outputs Hs; [done|].
  simpl in Hs. apply andb_prop in Hs as [Ho Hl1].
  destruct o as [|t d|t x]; simpl.
  - by apply IH.
  - case_bool_decide as Hname; [|by apply IH].
    simpl in Ho. rewrite (bool_decide_eq_true_2 _ Hname) in Ho. simpl in Ho.
    apply andb_prop in Ho as [Hk Hd]. rewrite Hk, Hd. simpl. by apply IH.
  - case_bool_decide as Hname; [|by apply IH].
    simpl in Ho. rewrite (bool_decide_eq_true_2 _ Hname) in Ho. simpl in Ho.
    apply bool_decide_eq_true_1 in Ho. subst x. simpl. by apply IH.
Qed.

(** Without a failure the outputs are all the valid results, in order. *)
Lemma store_silent (out : list Value) (outputs : slice) :
  forallb silent out = true →
  store out outputs = Ok (inl (append_all outputs (threaded out))).
Proof.
  intros Hs. rewrite <- (app_nil_r out) at 1.
  by rewrite store_silent_prefix.
Qed.


(** Only a result whose type is named [error] makes the loop return. *)
Lemma store_error_named (out : list Value) (outputs : slice) (e : error) :
  store out outputs = Ok (inr e) →
  ∃ o t, o ∈ out ∧ Type_ o = Ok t ∧ Name t = "error"
         ∧ IsNil o = Ok false ∧ ∃ c, Interface o = Ok (Some c) ∧ e = stage_error c.
Proof.
  revert outputs. induction out as [|o out IH]; intros outputs Hst; [done|].
  assert (Hrest : ∀ s, store out s = Ok (inr e) →
    ∃ o' t, o' ∈ o :: out ∧ Type_ o' = Ok t ∧ Name t = "error"
            ∧ IsNil o' = Ok false
            ∧ ∃ c, Interface o' = Ok (Some c) ∧ e = stage_error c).
  { intros s Hs. destruct (IH s Hs) as (o' & t & Hin & H).
    exists o', t. split; [by right | done]. }
  simpl in Hst. destruct o as [|t d|t x]; simpl in Hst; [by eapply Hrest| |].
  - case_bool_decide as Hname; [|by eapply Hrest].
    destruct (nillable (Kind t)) eqn:Hk; [|done]. simpl in Hst.
    destruct (is_DNil d) eqn:Hd; simpl in Hst; [by eapply Hrest|].
    unfold assert_error in Hst. simpl in Hst.
    destruct (implements TError t); [|done]. simpl in Hst.
    exists (Val t d), t. split; [by left|]. simpl. rewrite Hk, Hd.
    repeat split; try done.
    exists (Concrete t d). split; [done | congruence].
  - case_bool_decide as Hname; [|by eapply Hrest].
    destruct x as [c|]; simpl in Hst; [|by eapply Hrest].
    destruct (implements TError (ctype c)); [|done]. simpl in Hst.
    exists (IfaceVal t (Some c)), t. split; [by left|]. repeat split; try done.
    exists c. split; [done | congruence].
Qed.


(** ** One iteration and the whole loop *)

Lemma iteration_call (f : func) (inputs outputs : slice) (in_ : list Value)
    (code : list Value → outcome (list Value)) :
  arguments f inputs = Ok (inr in_) → Call_checks f in_ = Ok code →
  iteration (Fn f) inputs outputs =
    ([Invoke f in_],
     out ← code in_;
     r ← store out outputs;
     match r with
     | inl outputs => Ok (Next outputs (Some []))
     | inr e => Ok (Return None (Some e))
     end).
Proof. intros Ha Hc. unfold iteration. simpl. by rewrite Ha; simpl; rewrite Hc. Qed.

Lemma iteration_error (f : func) (inputs outputs : slice) (e : error) :
  arguments f inputs = Ok (inl e) →
  iteration (Fn f) inputs outputs = ([], Ok (Return None (Some e))).
Proof. intros Ha. unfold iteration. simpl. by rewrite Ha. Qed.

Lemma iteration_call_panics (f : func) (inputs outputs : slice)
    (in_ : list Value) (p : panic) :
  arguments f inputs = Ok (inr in_) → Call_checks f in_ = Panic p →
  iteration (Fn f) inputs outputs = ([], Panic p).
Proof. intros Ha Hc. unfold iteration. simpl. by rewrite Ha; simpl; rewrite Hc. Qed.

(** An iteration that falls through has made its call and left [outputs]
    empty for the next one. *)
Lemma iteration_Next (fn : object) (inputs outputs inputs' outputs' : slice) :
  snd (iteration fn inputs outputs) = Ok (Next inputs' outputs') →
  ∃ f in_ code out,
    fn = Fn f ∧ arguments f inputs = Ok (inr in_)
    ∧ Call_checks f in_ = Ok code ∧ code in_ = Ok out
    ∧ store out outputs = Ok (inl inputs') ∧ outputs' = Some []
    ∧ fst (iteration fn inputs outputs) = [Invoke f in_].
Proof.
  unfold iteration. destruct fn as [|c|f]; simpl; [done..|].
  destruct (arguments f inputs) as [[e|in_]|] eqn:Ha; simpl; [done| |done].
  destruct (Call_checks f in_) as [code|] eqn:Hc; simpl; [|done].
  destruct (code in_) as [out|] eqn:Hout; simpl; [|done].
  destruct (store out outputs) as [[o|e]|] eqn:Hst; simpl; [|done..].
  intros [= <- <-]. by exists f, in_, code, out.
Qed.

Lemma loop_through (pre rest : list object) (i o i' o' : slice) :
  through pre i o = Some (i', o') →
  loop (pre ++ rest) i o
  = (calls_of pre i o ++ fst (loop rest i' o'), snd (loop rest i' o')).
Proof.
  revert i o. induction pre as [|fn pre IH]; intros i o Hth; simpl in *.
  - injection Hth as <- <-. unfold calls_of. simpl. by destruct (loop rest i o).
  - unfold calls_of. simpl.
    destruct (iteration fn i o) as [calls [[i1 o1|res err]|p]]; simpl in *; try done.
    rewrite (IH _ _ Hth). unfold calls_of.
    destruct (loop pre i1 o1) as [calls1 r1]. simpl. by rewrite app_assoc.
Qed.

Lemma through_app (pre rest : list object) (i o i' o' : slice) :
  through pre i o = Some (i', o') →
  through (pre ++ rest) i o = through rest i' o'.
Proof.
  revert i o. induction pre as [|fn pre IH]; intros i o Hth; simpl in *.
  - by injection Hth as <- <-.
  - destruct (snd (iteration fn i o)) as [[i1 o1|res err]|p]; try done.
    by apply IH.
Qed.

(** At the head of every iteration [outputs] is empty. *)
Lemma through_outputs_empty (pre : list object) (i o i' o' : slice) :
  elems o = [] → through pre i o = Some (i', o') → elems o' = [].
Proof.
  revert i o. induction pre as [|fn pre IH]; intros i o Ho Hth; simpl in *.
  - by injection Hth as <- <-.
  - destruct (snd (iteration fn i o)) as [[i1 o1|res err]|p] eqn:Hit; try done.
    apply iteration_Next in Hit as (f & in_ & code & out & _ & _ & _ & _ & _ & -> & _).
    by apply (IH i1 (Some [])).
Qed.

Lemma elems_append_all (outputs : slice) (l : list iface) :
  elems (append_all outputs l) = elems outputs ++ l.
Proof.
  revert outputs. induction l as [|x l IH]; intros outputs; simpl.
  - by rewrite app_nil_r.
  - rewrite IH. simpl. by rewrite <- app_assoc.
Qed.

Lemma unnamed_error_silent (out : list Value) :
  (∀ o t, o ∈ out → Type_ o = Ok t → Name t ≠ "error") →
  forallb silent out = true.
Proof.
  intros H. apply forallb_forall. intros o Ho. apply list_elem_of_In in Ho.
  destruct o as [|t d|t x]; [done|..]; simpl;
    by rewrite (bool_decide_eq_false_2 _ (H _ t Ho eq_refl)).
Qed.

(** ** The checks of [Value.Call] *)

Lemma check_assignable_spec (xs : list iface) (ts : list rtype) (i : nat) :
  if forallb (fun xt => compatible xt.1 xt.2) (zip xs ts)
  then check_assignable i (map ValueOf xs) ts = Ok tt
  else ∃ p, check_assignable i (map ValueOf xs) ts = Panic p.
Proof.
  revert ts i. induction xs as [|x xs IH]; intros ts i; [done|].
  destruct ts as [|t ts]; [done|]. simpl.
  destruct x as [c|]; simpl; [|by eexists].
  destruct (assignable (ctype c) t); simpl; [apply IH | by eexists].
Qed.

Lemma not_variadic (f : func) : IsVariadic f = false → variadic_elem f = None.
Proof. unfold IsVariadic. by destruct (variadic_elem f). Qed.

(** Non-nil arguments assignable to the parameters pass the checks of a
    function that is not variadic. *)
Lemma Call_checks_compatible (f : func) (xs : list iface)
    (code : list Value → outcome (list Value)) :
  IsVariadic f = false →
  fn_code f = Some code → all_compatible xs (fn_in f) = true →
  Call_checks f (map ValueOf xs) = Ok code.
Proof.
  intros Hnv Hcode Hall. apply andb_prop in Hall as [Hlen Hall].
  apply bool_decide_eq_true_1 in Hlen.
  unfold Call_checks, NumIn.
  rewrite Hcode, (not_variadic f Hnv), length_map, Hlen, Nat.ltb_irrefl.
  pose proof (check_assignable_spec xs (fn_in f) 0) as Hchk.
  rewrite Hall in Hchk. rewrite Hchk.
  replace (forallb IsValid (map ValueOf xs)) with true; [done|].
  symmetry. apply forallb_forall. intros v Hv.
  apply in_map_iff in Hv as (x & <- & Hx).
  rewrite forallb_forall in Hall.
  assert (Hlen' : length xs = length (fn_in f)) by done.
  apply list_elem_of_In, list_elem_of_lookup in Hx as [i Hi].
  destruct (lookup_lt_is_Some_2 (fn_in f) i) as [t Ht].
  { rewrite <- Hlen'. by eapply lookup_lt_Some. }
  specialize (Hall (x, t)). simpl in Hall.
  destruct x as [c|]; [done|]. discriminate Hall.
  apply list_elem_of_In, list_elem_of_lookup. exists i.
  by apply lookup_zip_with_Some; exists None, t.
Qed.

(** As many arguments as parameters, one of them nil or not assignable: the
    call of a function that is not variadic panics. *)
Lemma Call_checks_incompatible (f : func) (xs : list iface) :
  IsVariadic f = false →
  length xs = NumIn f → all_compatible xs (fn_in f) = false →
  ∃ p, Call_checks f (map ValueOf xs) = Panic p.
Proof.
  intros Hv Hlen Hall. unfold all_compatible in Hall.
  rewrite bool_decide_eq_true_2 in Hall by done. simpl in Hall.
  unfold Call_checks. destruct (fn_code f) as [code|]; [|by eexists].
  rewrite (not_variadic f Hv), length_map, Hlen, Nat.ltb_irrefl.
  destruct (forallb IsValid (map ValueOf xs)); [|by eexists].
  pose proof (check_assignable_spec xs (fn_in f) 0) as Hchk.
  rewrite Hall in Hchk. destruct Hchk as [p ->]. by exists p.
Qed.

(** ** [New] and [Add] *)

Lemma Kind_not_func (t : rtype) : Kind t ≠ KFunc.
Proof. unfold Kind. by destruct (underlying t). Qed.

(** A non-nil value that is not a function is rejected by [Add], which leaves
    the Pipe as it was. *)
Lemma Add_not_function (p : Pipe) (c : concrete) :
  Add p (Data c) = Ok (p, Some NotCallable).
Proof.
  unfold Add. simpl.
  by rewrite bool_decide_eq_true_2 by apply Kind_not_func.
Qed.

Lemma Add_function (p : Pipe) (f : func) :
  Add p (Fn f) = Ok (mkPipe (funcs p ++ [Fn f]), None).
Proof. done. Qed.

Lemma New_loop_functions (fs rest : list object) (p : Pipe) :
  forallb is_function fs = true →
  New_loop (fs ++ rest) p = New_loop rest (mkPipe (funcs p ++ fs)).
Proof.
  revert p. induction fs as [|fn fs IH]; intros p Hfs; simpl.
  - destruct p. simpl. by rewrite app_nil_r.
  - simpl in Hfs. apply andb_prop in Hfs as [Hfn Hfs].
    destruct fn as [|c|f]; try done. simpl.
    rewrite IH by done. simpl. by rewrite <- app_assoc.
Qed.

(** [New] on functions yields the Pipe that holds them, in order. *)
Lemma New_functions (fs : list object) :
  forallb is_function fs = true → New fs = Ok (Some (mkPipe fs), None).
Proof.
  intros Hfs. unfold New. rewrite <- (app_nil_r fs) at 1.
  by rewrite New_loop_functions.
Qed.

(** [New] fails on the first candidate that is a non-nil non-function, and
    yields no Pipe. *)
Lemma New_not_function (fs rest : list object) (c : concrete) :
  forallb is_function fs = true →
  New (fs ++ Data c :: rest) = Ok (None, Some NotCallable).
Proof.
  intros Hfs. unfold New. rewrite New_loop_functions by done. simpl.
  by rewrite bool_decide_eq_true_2 by apply Kind_not_func.
Qed.

(** Every Pipe built by [New] and [Add] holds functions only. *)
Lemma New_invariant (fs : list object) (p : Pipe) (e : option error) :
  New fs = Ok (Some p, e) → forallb is_function (funcs p) = true.
Proof.
  unfold New. assert (H : forallb is_function (funcs (mkPipe [])) = true) by done.
  revert H. generalize (mkPipe []). induction fs as [|fn fs IH]; intros q Hq; simpl.
  - by intros [= <- _].
  - destruct fn as [|c|f]; simpl; try done.
    + by rewrite bool_decide_eq_true_2 by apply Kind_not_func.
    + apply IH. simpl. by rewrite forallb_app, Hq.
Qed.

Lemma Add_invariant (p p' : Pipe) (fn : object) (e : option error) :
  forallb is_function (funcs p) = true → Add p fn = Ok (p', e) →
  forallb is_function (funcs p') = true.
Proof.
  intros Hp. unfold Add. destruct fn as [|c|f]; simpl; try done.
  - rewrite bool_decide_eq_true_2 by apply Kind_not_func. by intros [= <- _].
  - intros [= <- _]. simpl. by rewrite forallb_app, Hp.
Qed.

(** ** The scenarios of [pipe_test.go] *)

Section Scenarios.
Import PipeTest.

Example New_fn1_fn2 : New [Fn fn1; Fn fn2] = Ok (Some (mkPipe [Fn fn1; Fn fn2]), None).
Proof. reflexivity. Qed.

Example Add_fn3 : Add (mkPipe [Fn fn1; Fn fn2]) (Fn fn3) = Ok (p, None).
Proof. reflexivity. Qed.

Example scenario_A :
  Execute p (Some [int 10; float64 3])
  = Ok (Some [Some (Concrete (TSlice TUint8) (bytes_of "odd"))], None).
Proof. reflexivity. Qed.

Example scenario_B :
  Execute p (Some [int 10]) = Ok (None, Some (ArityError fn1)).
Proof. reflexivity. Qed.

Example scenario_C :
  Execute p (Some [int 10; float64 3; int 1])
  = Ok (Some [Some (Concrete (TSlice TUint8) (bytes_of "odd"))], None).
Proof. reflexivity. Qed.

Example scenario_D :
  Execute p (Some [float64 (322 # 100)]) = Ok (None, Some (ArityError fn1)).
Proof. reflexivity. Qed.

(** [Error] of [errors.errorString] has a pointer receiver: the pointer is an
    [error], the struct value is not, and the call on it panics. *)
Example errorString_value_is_not_an_error :
  let value := TDefined "errors" "errorString" TString [] ["Error"] in
  assignable value TError = false
  ∧ Execute (mkPipe [Fn fn_msg]) (Some [Some (Concrete value (DString "boom"))])
    = Panic (CallNotAssignable 0)
  ∧ Execute (mkPipe [Fn fn_msg])
      (Some [Some (Concrete errorString (DString "boom"))])
    = Ok (Some [str "boom"], None).
Proof. repeat split; reflexivity. Qed.

(** A variadic stage takes one current value, as the element of its slice. *)
Example variadic_stage :
  Execute (mkPipe [Fn fn_sum]) (Some [int 1; int 2; int 3])
  = Ok (Some [int 1], None)
  ∧ Execute (mkPipe [Fn fn_sum]) None = Ok (None, Some (ArityError fn_sum)).
Proof. split; reflexivity. Qed.

Example scenario_E :
  Execute p (Some [int 10; float64 0])
  = Ok (None, Some (StageFailure (Concrete errorString (DString "division by zero"))))
  ∧ map callee (invocations p (Some [int 10; float64 0])) = [fn1].
Proof. split; reflexivity. Qed.

End Scenarios.

(** ** The claims of the specification *)

(** The remainder of an execution that has reached a stage. *)
Lemma Execute_through (pre rest : list object) (args inputs outputs : slice) :
  through pre args None = Some (inputs, outputs) →
  Execute (mkPipe (pre ++ rest)) args = snd (loop rest inputs outputs)
  ∧ invocations (mkPipe (pre ++ rest)) args
    = calls_of pre args None ++ fst (loop rest inputs outputs).
Proof.
  intros Hth. unfold Execute, invocations, run. simpl.
  by rewrite (loop_through _ _ _ _ _ _ Hth).
Qed.

(** C8. A Pipe with no stage returns its arguments as they are, with no
    error, and calls nothing. *)
Theorem Execute_no_stage (args : slice) :
  Execute (mkPipe []) args = Ok (args, None)
  ∧ invocations (mkPipe []) args = [].
Proof. done. Qed.

(** C4. When the execution reaches a stage with fewer current values than the
    stage has parameters, [Execute] returns the arity error and nil outputs,
    and neither that stage nor a later one is called.  With [pre = []] this is
    the case of too few initial arguments for the first stage. *)
Theorem deficit_returns_ArityError (pre post : list object) (f : func)
    (args inputs outputs : slice) :
  through pre args None = Some (inputs, outputs) →
  len inputs < NumIn f →
  Execute (mkPipe (pre ++ Fn f :: post)) args = Ok (None, Some (ArityError f))
  ∧ invocations (mkPipe (pre ++ Fn f :: post)) args = calls_of pre args None.
Proof.
  intros Hth Hlt.
  destruct (Execute_through pre (Fn f :: post) _ _ _ Hth) as [-> ->].
  simpl. rewrite (iteration_error f _ _ _ (arguments_deficit f inputs Hlt)).
  simpl. by rewrite app_nil_r.
Qed.

Lemma deficit_returns_ArityError_witness :
  Execute (mkPipe ([Fn PipeTest.fn2] ++ Fn PipeTest.fn1 :: [Fn PipeTest.fn3]))
    (Some [PipeTest.int 3])
  = Ok (None, Some (ArityError PipeTest.fn1))
  ∧ invocations (mkPipe ([Fn PipeTest.fn2] ++ Fn PipeTest.fn1 :: [Fn PipeTest.fn3]))
      (Some [PipeTest.int 3])
    = calls_of [Fn PipeTest.fn2] (Some [PipeTest.int 3]) None.
Proof.
  apply (deficit_returns_ArityError [Fn PipeTest.fn2] [Fn PipeTest.fn3]
           PipeTest.fn1 (Some [PipeTest.int 3])
           (Some [PipeTest.str "odd"]) (Some [])).
  - reflexivity.
  - vm_compute. lia.
Defined.

(** In the surplus case, non-nil first values of which one is not assignable
    to its parameter type are selected all the same, and the reflective call
    of a stage that is not variadic panics. *)
Lemma surplus_incompatible_panics (pre post : list object) (f : func)
    (args inputs outputs : slice) :
  through pre args None = Some (inputs, outputs) →
  IsVariadic f = false →
  NumIn f < len inputs →
  Forall (fun x => x ≠ None) (take (NumIn f) (elems inputs)) →
  all_compatible (take (NumIn f) (elems inputs)) (fn_in f) = false →
  arguments f inputs = Ok (inr (map ValueOf (take (NumIn f) (elems inputs))))
  ∧ ∃ p, Execute (mkPipe (pre ++ Fn f :: post)) args = Panic p.
Proof.
  intros Hth Hv Hlt Hnn Hbad.
  destruct (Execute_through pre (Fn f :: post) _ _ _ Hth) as [-> _].
  assert (Ha : arguments f inputs
               = Ok (inr (map ValueOf (take (NumIn f) (elems inputs))))).
  { rewrite arguments_surplus by done.
    replace (forallb _ _) with true; [done|]. symmetry.
    apply forallb_forall. intros x Hx. apply bool_decide_eq_true_2.
    rewrite Forall_forall in Hnn. by apply Hnn, list_elem_of_In. }
  split; [done|].
  destruct (Call_checks_incompatible f (take (NumIn f) (elems inputs)))
    as [p Hp]; [done| |done|].
  { rewrite length_take. unfold len in Hlt. lia. }
  exists p. simpl. by rewrite (iteration_call_panics f _ _ _ _ Ha Hp).
Qed.

(** C1. In the surplus case the check of line 83 compares the type of an input
    with the type of that same input, not with the parameter type.  The
    string ["x"] is not assignable to the [int] parameter of [fn2], yet it is
    selected, no error is returned, and the reflective call panics. *)
Theorem surplus_check_ignores_parameter_type :
  let args := Some [PipeTest.str "x"; PipeTest.int 1] in
  NumIn PipeTest.fn2 < len args
  ∧ compatible (PipeTest.str "x") TInt = false
  ∧ arguments PipeTest.fn2 args = Ok (inr [Val TString (DString "x")])
  ∧ Execute (mkPipe [Fn PipeTest.fn2]) args = Panic (CallNotAssignable 0).
Proof. simpl. split; [vm_compute; lia|]. repeat split; reflexivity. Qed.

(** C7, as stated, fails: a nil beyond the first [numIn] values is never
    looked at.  [fn1] has two parameters; the third argument is nil and the
    execution succeeds. *)
Lemma nil_beyond_arity_is_ignored :
  let args := Some [PipeTest.int 10; PipeTest.float64 3; None] in
  NumIn PipeTest.fn1 < len args
  ∧ None ∈ elems args
  ∧ Execute PipeTest.p args
    = Ok (Some [Some (Concrete (TSlice TUint8) (PipeTest.bytes_of "odd"))], None)
  ∧ Execute PipeTest.p args ≠ Ok (None, Some (ArgumentTypeError PipeTest.fn1)).
Proof.
  simpl. split; [vm_compute; lia|]. split; [|split; [reflexivity | discriminate]].
  apply list_elem_of_lookup. by exists 2.
Qed.

(** C7, amended. In the surplus case a nil among the first [numIn] current
    values makes [Execute] return the argument error and nil outputs; the
    stage is not called. *)
Theorem nil_among_first_N_returns_ArgumentTypeError (pre post : list object)
    (f : func) (args inputs outputs : slice) (i : nat) :
  through pre args None = Some (inputs, outputs) →
  NumIn f < len inputs →
  i < NumIn f → elems inputs !! i = Some None →
  Execute (mkPipe (pre ++ Fn f :: post)) args
  = Ok (None, Some (ArgumentTypeError f))
  ∧ invocations (mkPipe (pre ++ Fn f :: post)) args = calls_of pre args None.
Proof.
  intros Hth Hlt Hi Hnil.
  destruct (Execute_through pre (Fn f :: post) _ _ _ Hth) as [-> ->].
  assert (Ha : arguments f inputs = Ok (inl (ArgumentTypeError f))).
  { rewrite arguments_surplus by done.
    destruct (forallb _ _) eqn:Hall; [|done].
    rewrite forallb_forall in Hall. specialize (Hall None).
    discriminate Hall. apply list_elem_of_In, list_elem_of_lookup. exists i.
    by rewrite lookup_take_lt. }
  simpl. rewrite (iteration_error f _ _ _ Ha). simpl. by rewrite app_nil_r.
Qed.

Lemma nil_among_first_N_returns_ArgumentTypeError_witness :
  Execute (mkPipe ([] ++ Fn PipeTest.fn1 :: [Fn PipeTest.fn2; Fn PipeTest.fn3]))
    (Some [PipeTest.int 10; None; PipeTest.float64 3])
  = Ok (None, Some (ArgumentTypeError PipeTest.fn1))
  ∧ invocations
      (mkPipe ([] ++ Fn PipeTest.fn1 :: [Fn PipeTest.fn2; Fn PipeTest.fn3]))
      (Some [PipeTest.int 10; None; PipeTest.float64 3])
    = calls_of [] (Some [PipeTest.int 10; None; PipeTest.float64 3]) None.
Proof.
  apply (nil_among_first_N_returns_ArgumentTypeError [] _ PipeTest.fn1
           (Some [PipeTest.int 10; None; PipeTest.float64 3])
           (Some [PipeTest.int 10; None; PipeTest.float64 3]) None 1).
  - reflexivity.
  - vm_compute. lia.
  - vm_compute. lia.
  - reflexivity.
Defined.

(** The calls of the remaining stages start with the call of the first one,
    once its arguments pass the checks of [Value.Call]. *)
Lemma loop_calls_head (f : func) (post : list object) (inputs outputs : slice)
    (in_ : list Value) (code : list Value → outcome (list Value)) :
  arguments f inputs = Ok (inr in_) → Call_checks f in_ = Ok code →
  ∃ later, fst (loop (Fn f :: post) inputs outputs) = Invoke f in_ :: later.
Proof.
  intros Ha Hc. simpl. rewrite (iteration_call f _ _ _ _ Ha Hc).
  destruct (code in_) as [out|]; simpl; [|by eexists].
  destruct (store out outputs) as [[o|e]|]; simpl; [|by eexists..].
  destruct (loop post o (Some [])). by eexists.
Qed.

(** C5, as stated, fails on two kinds of stage.  [fn_sum] is variadic: its
    parameter type is [[]int], the first of two current values is an [[]int],
    compatible with it, yet the reflective call wants an [int] for the element
    and panics.  [fn_nil] is the nil function of type [func(int) string]: the
    first of two current values is an [int], and the call panics.  In both the
    stage receives nothing. *)
Lemma surplus_compatible_yet_not_passed :
  let ints := Some (Concrete (TSlice TInt) (DSlice [DInt 1])) in
  (NumIn PipeTest.fn_sum < len (Some [ints; PipeTest.int 2])
   ∧ all_compatible (take (NumIn PipeTest.fn_sum) [ints; PipeTest.int 2])
       (fn_in PipeTest.fn_sum) = true
   ∧ Execute (mkPipe [Fn PipeTest.fn_sum]) (Some [ints; PipeTest.int 2])
     = Panic CallVariadicNotAssignable
   ∧ invocations (mkPipe [Fn PipeTest.fn_sum]) (Some [ints; PipeTest.int 2]) = [])
  ∧ (NumIn PipeTest.fn_nil < len (Some [PipeTest.int 1; PipeTest.int 2])
     ∧ all_compatible (take (NumIn PipeTest.fn_nil) [PipeTest.int 1; PipeTest.int 2])
         (fn_in PipeTest.fn_nil) = true
     ∧ Execute (mkPipe [Fn PipeTest.fn_nil]) (Some [PipeTest.int 1; PipeTest.int 2])
       = Panic CallOfNilFunction
     ∧ invocations (mkPipe [Fn PipeTest.fn_nil])
         (Some [PipeTest.int 1; PipeTest.int 2]) = []).
Proof.
  simpl. split; (split; [vm_compute; lia | repeat split; reflexivity]).
Qed.

(** C5, amended. When the execution reaches a stage that is a non-nil
    function and is not variadic, with more current values than the stage has
    parameters, and the first [numIn] of them are non-nil and assignable to
    the parameter types, the stage is called on exactly these first values,
    in their order; the others are dropped: the stage and all later ones run
    as they would on the first [numIn] values alone. *)
Theorem surplus_passes_first_N (pre post : list object) (f : func)
    (code : list Value → outcome (list Value)) (args inputs outputs : slice) :
  through pre args None = Some (inputs, outputs) →
  NumIn f < len inputs →
  IsVariadic f = false →
  fn_code f = Some code →
  all_compatible (take (NumIn f) (elems inputs)) (fn_in f) = true →
  let first := take (NumIn f) (elems inputs) in
  (∃ later, invocations (mkPipe (pre ++ Fn f :: post)) args
            = calls_of pre args None ++ Invoke f (map ValueOf first) :: later)
  ∧ loop (Fn f :: post) inputs outputs = loop (Fn f :: post) (Some first) outputs
  ∧ Execute (mkPipe (pre ++ Fn f :: post)) args
    = snd (loop (Fn f :: post) (Some first) outputs).
Proof.
  intros Hth Hlt Hnv Hcode Hall first.
  destruct (Execute_through pre (Fn f :: post) _ _ _ Hth) as [-> ->].
  assert (Hnn : forallb (fun x : iface => bool_decide (x ≠ None)) first = true).
  { apply forallb_forall. intros x Hx. apply bool_decide_eq_true_2.
    apply andb_prop in Hall as [Hlen Hall]. apply bool_decide_eq_true_1 in Hlen.
    rewrite forallb_forall in Hall.
    apply list_elem_of_In, list_elem_of_lookup in Hx as [i Hi].
    destruct (lookup_lt_is_Some_2 (fn_in f) i) as [t Ht].
    { rewrite <- Hlen. by eapply lookup_lt_Some. }
    intros ->. specialize (Hall (None, t)). discriminate Hall.
    apply list_elem_of_In, list_elem_of_lookup. exists i.
    by apply lookup_zip_with_Some; exists None, t. }
  assert (Ha : arguments f inputs = Ok (inr (map ValueOf first))).
  { rewrite arguments_surplus by done. fold first. by rewrite Hnn. }
  assert (Hexact : arguments f (Some first) = Ok (inr (map ValueOf first))).
  { apply (arguments_exact f (Some first)). unfold len, first. simpl.
    rewrite length_take. unfold len in Hlt. lia. }
  pose proof (Call_checks_compatible f first code Hnv Hcode Hall) as Hc.
  split; [|split].
  - destruct (loop_calls_head f post inputs outputs _ _ Ha Hc) as [later ->].
    by exists later.
  - simpl. by rewrite (iteration_call f _ _ _ _ Ha Hc),
      (iteration_call f _ _ _ _ Hexact Hc).
  - simpl. by rewrite (iteration_call f _ _ _ _ Ha Hc),
      (iteration_call f _ _ _ _ Hexact Hc).
Qed.

Lemma surplus_passes_first_N_witness :
  (∃ later, invocations PipeTest.p
              (Some [PipeTest.int 10; PipeTest.float64 3; PipeTest.int 1])
            = [] ++ Invoke PipeTest.fn1
                      [Val TInt (DInt 10); Val TFloat64 (DFloat64 3)] :: later)
  ∧ Execute PipeTest.p (Some [PipeTest.int 10; PipeTest.float64 3; PipeTest.int 1])
    = Execute PipeTest.p (Some [PipeTest.int 10; PipeTest.float64 3]).
Proof.
  destruct (surplus_passes_first_N [] [Fn PipeTest.fn2; Fn PipeTest.fn3]
              PipeTest.fn1
              (default (fun _ => Ok []) (fn_code PipeTest.fn1))
              (Some [PipeTest.int 10; PipeTest.float64 3; PipeTest.int 1])
              (Some [PipeTest.int 10; PipeTest.float64 3; PipeTest.int 1]) None)
    as (Hcalls & _ & Hexec).
  - reflexivity.
  - vm_compute. lia.
  - reflexivity.
  - reflexivity.
  - reflexivity.
  - split; [exact Hcalls | exact Hexec].
Defined.










(** C9. Only a result whose declared type is named [error] can stop the
    execution: when a stage makes [Execute] return an error, that error is a
    non-nil result of the stage in a slot whose type has that name.  A result
    of a concrete type with another name, whatever its value and whether or
    not the type implements [error], is stored like any other: when the other
    results do not fail, it is among the current values of the next stage, or
    among the outputs of [Execute] when the stage is the last. *)
Theorem only_results_named_error_short_circuit (pre : list object) (f : func)
    (args inputs outputs : slice) (in_ out : list Value)
    (code : list Value → outcome (list Value)) :
  through pre args None = Some (inputs, outputs) →
  arguments f inputs = Ok (inr in_) →
  Call_checks f in_ = Ok code → code in_ = Ok out →
  (∀ res e, snd (iteration (Fn f) inputs outputs) = Ok (Return res e) →
     ∃ o t c, o ∈ out ∧ Type_ o = Ok t ∧ Name t = "error"
              ∧ IsNil o = Ok false ∧ Interface o = Ok (Some c)
              ∧ res = None ∧ e = Some (stage_error c))
  ∧ (∀ l1 t d l2,
       out = l1 ++ Val t d :: l2 → Name t ≠ "error" →
       forallb silent l1 = true → forallb silent l2 = true →
       ∃ inputs',
         elems inputs' = threaded l1 ++ Some (Concrete t d) :: threaded l2
         ∧ through (pre ++ [Fn f]) args None = Some (inputs', Some [])
         ∧ Execute (mkPipe (pre ++ [Fn f])) args = Ok (inputs', None)).
Proof.
  intros Hth Ha Hc Hout. split.
  - intros res e. rewrite (iteration_call f _ _ _ _ Ha Hc), Hout. simpl.
    destruct (store out outputs) as [[o'|e']|] eqn:Hst; simpl; [done| |done].
    intros [= <- <-].
    destruct (store_error_named _ _ _ Hst)
      as (o & t & Ho & Ht & Hname & Hnil & c & Hc' & ->).
    by exists o, t, c.
  - intros l1 t d l2 -> Hname Hl1 Hl2.
    assert (Hsil : forallb silent (l1 ++ Val t d :: l2) = true).
    { rewrite forallb_app, Hl1. simpl.
      by rewrite (bool_decide_eq_false_2 _ Hname), Hl2. }
    exists (append_all outputs (threaded (l1 ++ Val t d :: l2))).
    split; [|split].
    + rewrite elems_append_all.
      rewrite (through_outputs_empty pre args None inputs outputs eq_refl Hth).
      simpl. clear. induction l1 as [|o l1 IH]; [done|].
      destruct o; simpl; by rewrite ?IH.
    + rewrite (through_app _ _ _ _ _ _ Hth). simpl.
      rewrite (iteration_call f _ _ _ _ Ha Hc), Hout. simpl.
      by rewrite store_silent.
    + destruct (Execute_through pre [Fn f] _ _ _ Hth) as [-> _].
      simpl. rewrite (iteration_call f _ _ _ _ Ha Hc), Hout. simpl.
      by rewrite store_silent.
Qed.

Lemma only_results_named_error_short_circuit_witness :
  implements TError PipeTest.MyErr = true
  ∧ Execute (mkPipe ([] ++ [Fn PipeTest.fn_myerr])) (Some [PipeTest.int 1])
    = Ok (Some [Some (Concrete PipeTest.MyErr (DString "boom")); None], None).
Proof.
  split; [reflexivity|].
  destruct (only_results_named_error_short_circuit [] PipeTest.fn_myerr
              (Some [PipeTest.int 1]) (Some [PipeTest.int 1]) None
              [Val TInt (DInt 1)]
              [Val PipeTest.MyErr (DString "boom"); IfaceVal TError None]
              (default (fun _ => Ok []) (fn_code PipeTest.fn_myerr)))
    as [_ Hthread]; [reflexivity..|].
  destruct (Hthread [] PipeTest.MyErr (DString "boom") [IfaceVal TError None])
    as (inputs' & Hel & _ & Hexec); [reflexivity | discriminate | reflexivity..|].
  rewrite Hexec. destruct inputs' as [l|]; simpl in Hel; [|discriminate].
  by rewrite Hel.
Defined.

(** C6. [New] and [Add] take the kind of [reflect.TypeOf(f)] without testing
    [f] against nil first: on the nil candidate, which is not a function, they
    panic and return no error. *)
Theorem nil_candidate_panics (p : Pipe) (rest : list object) :
  KindOf Nil = Panic NilTypeDereference
  ∧ Add p Nil = Panic NilTypeDereference
  ∧ New (Nil :: rest) = Panic NilTypeDereference
  ∧ New (Fn PipeTest.fn1 :: Nil :: rest) = Panic NilTypeDereference.
Proof. done. Qed.

(** ** Further properties of [New] and [Add] *)

Lemma New_loop_Some (fs : list object) (q p : Pipe) (e : option error) :
  New_loop fs q = Ok (Some p, e) →
  e = None ∧ funcs p = funcs q ++ fs ∧ forallb is_function fs = true.
Proof.
  revert q. induction fs as [|fn fs IH]; intros q; simpl.
  - intros [= <- <-]. by rewrite app_nil_r.
  - destruct fn as [|c|f]; simpl; [done| |].
    + by rewrite bool_decide_eq_true_2 by apply Kind_not_func.
    + intros H. destruct (IH _ H) as (-> & Hp & Hfs). simpl in Hp.
      by rewrite <- app_assoc in Hp.
Qed.

(** X1. [New] yields a Pipe exactly when every candidate is a function; the
    Pipe then holds the candidates in the order given, and the error is nil. *)
Theorem New_succeeds_iff_all_functions (fs : list object) (p : Pipe)
    (e : option error) :
  New fs = Ok (Some p, e) ↔
  forallb is_function fs = true ∧ p = mkPipe fs ∧ e = None.
Proof.
  split.
  - intros H. destruct (New_loop_Some _ _ _ _ H) as (-> & Hp & Hfs).
    simpl in Hp. destruct p as [l]. simpl in Hp. by subst l.
  - intros (Hfs & -> & ->). unfold New. rewrite <- (app_nil_r fs) at 1.
    by rewrite New_loop_functions.
Qed.

(** X2. [New] stops at the first candidate that is not a function: when it is
    a non-nil value, [New] returns no Pipe and the "not a function" error
    without looking at the candidates after it, a nil one included. *)
Theorem New_stops_at_first_non_function (fs rest : list object) (c : concrete) :
  forallb is_function fs = true →
  New (fs ++ Data c :: rest) = Ok (None, Some NotCallable).
Proof.
  intros Hfs. unfold New. rewrite New_loop_functions by done. simpl.
  by rewrite bool_decide_eq_true_2 by apply Kind_not_func.
Qed.

Lemma New_stops_at_first_non_function_witness :
  New ([Fn PipeTest.fn1; Fn PipeTest.fn2]
         ++ Data (Concrete TInt (DInt 7)) :: [Nil; Fn PipeTest.fn3])
  = Ok (None, Some NotCallable).
Proof.
  apply (New_stops_at_first_non_function [Fn PipeTest.fn1; Fn PipeTest.fn2]
           [Nil; Fn PipeTest.fn3] (Concrete TInt (DInt 7))).
  reflexivity.
Defined.

(** X3. Building with [New] and then adding a function with [Add] gives the
    Pipe that [New] builds from all of them at once. *)
Theorem New_then_Add (fs : list object) (f : func) (p : Pipe) :
  New fs = Ok (Some p, None) →
  Add p (Fn f) = Ok (mkPipe (fs ++ [Fn f]), None)
  ∧ New (fs ++ [Fn f]) = Ok (Some (mkPipe (fs ++ [Fn f])), None).
Proof.
  intros H. destruct (New_loop_Some _ _ _ _ H) as (_ & Hp & Hfs).
  simpl in Hp. split.
  - unfold Add. simpl. by rewrite Hp.
  - unfold New. by rewrite New_loop_functions.
Qed.

Lemma New_then_Add_witness :
  Add (mkPipe [Fn PipeTest.fn1; Fn PipeTest.fn2]) (Fn PipeTest.fn3)
  = Ok (mkPipe ([Fn PipeTest.fn1; Fn PipeTest.fn2] ++ [Fn PipeTest.fn3]), None)
  ∧ New ([Fn PipeTest.fn1; Fn PipeTest.fn2] ++ [Fn PipeTest.fn3])
    = Ok (Some (mkPipe ([Fn PipeTest.fn1; Fn PipeTest.fn2] ++ [Fn PipeTest.fn3])),
          None).
Proof.
  apply (New_then_Add [Fn PipeTest.fn1; Fn PipeTest.fn2] PipeTest.fn3
           (mkPipe [Fn PipeTest.fn1; Fn PipeTest.fn2])).
  reflexivity.
Defined.

(** X4. An [Add] that returns has either appended its candidate, a function,
    at the end and returned a nil error, or returned the "not a function"
    error and left the Pipe as it was; the stages already there are never
    removed or reordered, and a Pipe of functions stays one. *)
Theorem Add_appends_or_leaves (p p' : Pipe) (fn : object) (e : option error) :
  Add p fn = Ok (p', e) →
  ((e = None ∧ is_function fn = true ∧ funcs p' = funcs p ++ [fn])
   ∨ (e = Some NotCallable ∧ is_function fn = false ∧ p' = p))
  ∧ (forallb is_function (funcs p) = true →
     forallb is_function (funcs p') = true).
Proof.
  unfold Add. destruct fn as [|c|f]; simpl; [done| |].
  - rewrite bool_decide_eq_true_2 by apply Kind_not_func.
    intros [= <- <-]. split; [by right | done].
  - intros [= <- <-]. split; [by left|]. simpl. intros Hp.
    by rewrite forallb_app, Hp.
Qed.

Lemma Add_appends_or_leaves_witness :
  ((Some NotCallable = None
    ∧ is_function (Data (Concrete TString (DString "x"))) = true
    ∧ funcs PipeTest.p
      = funcs PipeTest.p ++ [Data (Concrete TString (DString "x"))])
   ∨ (Some NotCallable = Some NotCallable
      ∧ is_function (Data (Concrete TString (DString "x"))) = false
      ∧ PipeTest.p = PipeTest.p))
  ∧ (forallb is_function (funcs PipeTest.p) = true →
     forallb is_function (funcs PipeTest.p) = true).
Proof.
  apply (Add_appends_or_leaves PipeTest.p PipeTest.p
           (Data (Concrete TString (DString "x"))) (Some NotCallable)).
  reflexivity.
Defined.

(** ** Further properties of [Execute] *)

(** The errors lines 67-92 can return. *)
Lemma arguments_inl (f : func) (inputs : slice) (e : error) :
  arguments f inputs = Ok (inl e) →
  (e = ArityError f ∧ len inputs < NumIn f)
  ∨ (e = ArgumentTypeError f ∧ NumIn f < len inputs).
Proof.
  unfold arguments. destruct (fill_in f inputs) as [in_|]; simpl; [|done].
  destruct (len inputs <? NumIn f) eqn:E1.
  - intros [= <-]. left. split; [done|]. by apply Nat.ltb_lt.
  - destruct (NumIn f <? len inputs) eqn:E2; [|done].
    destruct (select f inputs in_) as [[newIn j]|]; simpl; [|done].
    case_bool_decide; [|done]. intros [= <-]. right. split; [done|].
    by apply Nat.ltb_lt.
Qed.

(** The error lines 98-106 can return: a stage's own error, of a type that
    implements [error]. *)
Lemma store_inr (out : list Value) (outputs : slice) (e : error) :
  store out outputs = Ok (inr e) →
  ∃ c, e = stage_error c ∧ implements TError (ctype c) = true.
Proof.
  revert outputs. induction out as [|o out IH]; intros outputs; [done|].
  simpl. destruct o as [|t d|t x]; simpl; [apply IH| |].
  - case_bool_decide; [|apply IH].
    destruct (nillable (Kind t)); [|done]. simpl.
    destruct (is_DNil d); simpl; [apply IH|].
    destruct (implements TError t) eqn:Hi; [|done]. simpl.
    intros [= <-]. by exists (Concrete t d).
  - case_bool_decide; [|apply IH].
    destruct x as [c|]; simpl; [|apply IH].
    destruct (implements TError (ctype c)) eqn:Hi; [|done]. simpl.
    intros [= <-]. by exists c.
Qed.

(** What an iteration that makes [Execute] return has returned. *)
Lemma iteration_Return (fn : object) (inputs outputs res : slice)
    (err : option error) :
  snd (iteration fn inputs outputs) = Ok (Return res err) →
  res = None ∧ ∃ f e, fn = Fn f ∧ err = Some e
    ∧ (e = ArityError f ∨ e = ArgumentTypeError f
       ∨ ∃ c, e = stage_error c ∧ implements TError (ctype c) = true).
Proof.
  unfold iteration. destruct fn as [|c|f]; simpl; [done..|].
  destruct (arguments f inputs) as [[e|in_]|] eqn:Ha; simpl; [| |done].
  - intros [= <- <-]. split; [done|]. exists f, e. repeat split.
    destruct (arguments_inl _ _ _ Ha) as [[-> _]|[-> _]]; auto.
  - destruct (Call_checks f in_) as [code|]; simpl; [|done].
    destruct (code in_) as [out|]; simpl; [|done].
    destruct (store out outputs) as [[o|e]|] eqn:Hst; simpl; [done| |done].
    intros [= <- <-]. split; [done|]. exists f, e. repeat split.
    right. right. by eapply store_inr.
Qed.

(** The calls of an iteration: none, or one call of the stage itself. *)
Lemma iteration_calls (fn : object) (inputs outputs : slice) :
  fst (iteration fn inputs outputs) = []
  ∨ ∃ f in_ code, fn = Fn f ∧ fst (iteration fn inputs outputs) = [Invoke f in_]
      ∧ Call_checks f in_ = Ok code.
Proof.
  unfold iteration. destruct fn as [|c|f]; simpl; [by left..|].
  destruct (arguments f inputs) as [[e|in_]|]; simpl; [by left| |by left].
  destruct (Call_checks f in_) as [code|] eqn:Hc; simpl; [|by left].
  right. by exists f, in_, code.
Qed.




(** X6. [Execute] calls the stages in the order of registration, each at most
    once and none after a stage that was not called: the stages called are an
    initial segment of [p.funcs]. *)
Theorem invocations_follow_registration (p : Pipe) (args : slice) :
  map stage_of (invocations p args) `prefix_of` funcs p.
Proof.
  unfold invocations, run. destruct p as [fs]. simpl.
  generalize (@None (list iface)). revert args.
  induction fs as [|fn fs IH]; intros args outputs; simpl; [by exists []|].
  destruct (iteration_calls fn args outputs) as [Hnil|(f & in_ & code & -> & Hc & _)].
  - destruct (iteration fn args outputs) as [calls [[i1 o1|res1 err1]|pn]] eqn:Hit;
      simpl in *; subst calls.
    + destruct (loop fs i1 o1) as [calls' r'] eqn:Hl. simpl.
      assert (Hn : snd (iteration fn args outputs) = Ok (Next i1 o1))
        by by rewrite Hit.
      apply iteration_Next in Hn as (f & in_ & _ & _ & _ & _ & _ & _ & _ & _ & Hf).
      by rewrite Hit in Hf.
    + by eexists.
    + by eexists.
  - destruct (iteration (Fn f) args outputs) as [calls [[i1 o1|res1 err1]|pn]] eqn:Hit;
      simpl in *; subst calls.
    + specialize (IH i1 o1). destruct (loop fs i1 o1) as [calls' r']. simpl in *.
      destruct IH as [k ->]. by exists k.
    + by exists fs.
    + by exists fs.
Qed.

(** X7. When [Execute] returns without an error, every stage of the Pipe has
    been called exactly once, in the order of registration. *)
Theorem success_calls_every_stage (p : Pipe) (args res : slice) :
  Execute p args = Ok (res, None) →
  map stage_of (invocations p args) = funcs p.
Proof.
  unfold Execute, invocations, run. destruct p as [fs]. simpl.
  generalize (@None (list iface)). revert args.
  induction fs as [|fn fs IH]; intros args outputs; simpl; [done|].
  destruct (iteration fn args outputs) as [calls [[i1 o1|res1 err1]|pn]] eqn:Hit;
    simpl; [| |done].
  - assert (Hn : snd (iteration fn args outputs) = Ok (Next i1 o1))
      by by rewrite Hit.
    apply iteration_Next in Hn as (f & in_ & _ & _ & -> & _ & _ & _ & _ & _ & Hf).
    rewrite Hit in Hf. simpl in Hf. subst calls.
    specialize (IH i1 o1). destruct (loop fs i1 o1) as [calls' r']. simpl in *.
    intros Hr. by rewrite (IH Hr).
  - intros [= -> ->].
    assert (Hr : snd (iteration fn args outputs) = Ok (Return res None))
      by by rewrite Hit.
    by apply iteration_Return in Hr as (_ & f & e & _ & [=] & _).
Qed.

Lemma success_calls_every_stage_witness :
  map stage_of (invocations PipeTest.p
                  (Some [PipeTest.int 10; PipeTest.float64 3]))
  = funcs PipeTest.p.
Proof.
  apply (success_calls_every_stage PipeTest.p
           (Some [PipeTest.int 10; PipeTest.float64 3])
           (Some [Some (Concrete (TSlice TUint8) (PipeTest.bytes_of "odd"))])).
  reflexivity.
Defined.

(** X9. In the surplus case the selection of lines 80-92 depends on nothing
    but nil: it returns the argument error exactly when one of the first
    [numIn] inputs is nil, and otherwise selects the first [numIn] inputs,
    whatever their types and those of the parameters. *)
Theorem surplus_selection_tests_nil_only (f : func) (inputs : slice) :
  NumIn f < len inputs →
  (arguments f inputs = Ok (inl (ArgumentTypeError f))
   ↔ ∃ i, i < NumIn f ∧ elems inputs !! i = Some None)
  ∧ (arguments f inputs = Ok (inr (map ValueOf (take (NumIn f) (elems inputs))))
     ↔ ∀ i, i < NumIn f → elems inputs !! i ≠ Some None).
Proof.
  intros Hlt. rewrite arguments_surplus by done.
  destruct (forallb _ _) eqn:Hall.
  - assert (Hno : ∀ i, i < NumIn f → elems inputs !! i ≠ Some None).
    { intros i Hi Hnil. rewrite forallb_forall in Hall.
      specialize (Hall None). discriminate Hall.
      apply list_elem_of_In, list_elem_of_lookup. exists i.
      by rewrite lookup_take_lt. }
    split; split; try done.
    intros (i & Hi & Hnil). by destruct (Hno i Hi).
  - assert (Hex : ∃ i, i < NumIn f ∧ elems inputs !! i = Some None).
    { apply not_true_iff_false in Hall.
      destruct (decide (Forall (fun x : iface => x ≠ None)
                          (take (NumIn f) (elems inputs)))) as [HF|HF].
      - exfalso. apply Hall, forallb_forall. intros x Hx.
        apply bool_decide_eq_true_2. rewrite Forall_forall in HF.
        by apply HF, list_elem_of_In.
      - apply not_Forall_Exists in HF; [|apply _].
        apply Exists_exists in HF as (x & Hx & Hnn).
        apply list_elem_of_lookup in Hx as [i Hi].
        assert (x = None) as -> by (destruct x; [by destruct Hnn | done]).
        exists i. apply lookup_take_Some in Hi as [Hi Hlti]. done. }
    split; split; try done.
    intros Hno. destruct Hex as (i & Hi & Hnil). by destruct (Hno i Hi).
Qed.

Lemma surplus_selection_tests_nil_only_witness :
  (arguments PipeTest.fn2 (Some [PipeTest.str "x"; PipeTest.int 1])
   = Ok (inl (ArgumentTypeError PipeTest.fn2))
   ↔ ∃ i, i < NumIn PipeTest.fn2
          ∧ [PipeTest.str "x"; PipeTest.int 1] !! i = Some None)
  ∧ (arguments PipeTest.fn2 (Some [PipeTest.str "x"; PipeTest.int 1])
     = Ok (inr (map ValueOf (take (NumIn PipeTest.fn2)
                               [PipeTest.str "x"; PipeTest.int 1])))
     ↔ ∀ i, i < NumIn PipeTest.fn2 →
            [PipeTest.str "x"; PipeTest.int 1] !! i ≠ Some None).
Proof.
  apply (surplus_selection_tests_nil_only PipeTest.fn2
           (Some [PipeTest.str "x"; PipeTest.int 1])).
  vm_compute. lia.
Defined.

Lemma surplus_incompatible_panics_witness :
  arguments PipeTest.fn2 (Some [PipeTest.str "x"; PipeTest.int 1])
  = Ok (inr (map ValueOf (take (NumIn PipeTest.fn2)
                            (elems (Some [PipeTest.str "x"; PipeTest.int 1])))))
  ∧ ∃ p, Execute (mkPipe ([] ++ Fn PipeTest.fn2 :: [Fn PipeTest.fn3]))
           (Some [PipeTest.str "x"; PipeTest.int 1]) = Panic p.
Proof.
  apply (surplus_incompatible_panics [] [Fn PipeTest.fn3] PipeTest.fn2
           (Some [PipeTest.str "x"; PipeTest.int 1])
           (Some [PipeTest.str "x"; PipeTest.int 1]) None).
  - reflexivity.
  - reflexivity.
  - vm_compute. lia.
  - repeat constructor. discriminate.
  - reflexivity.
Defined.

(** *** Running a Pipe in two parts *)

(** [Execute] looks at [inputs] and [outputs] through their elements only. *)
Lemma arguments_elems (f : func) (i i' : slice) :
  elems i = elems i' → arguments f i = arguments f i'.
Proof.
  intros H. unfold arguments, fill_in, select, matches, index, len.
  by rewrite H.
Qed.

Lemma store_elems (out : list Value) (o o' : slice) :
  elems o = elems o' →
  match store out o, store out o' with
  | Ok (inl s), Ok (inl s') => elems s = elems s'
  | Ok (inr e), Ok (inr e') => e = e'
  | Panic p, Panic p' => p = p'
  | _, _ => False
  end.
Proof.
  revert o o'. induction out as [|v out IH]; intros o o' H; simpl; [done|].
  assert (Happ : ∀ x, append o x = append o' x).
  { intros x. unfold append. by rewrite H. }
  destruct v as [|t d|t x]; simpl; [by apply IH|..]; rewrite !Happ.
  - case_bool_decide; [|by apply IH, f_equal].
    destruct (nillable (Kind t)); simpl; [|done].
    destruct (is_DNil d); simpl; [by apply IH, f_equal|].
    destruct (implements TError t); by simpl.
  - case_bool_decide; [|by apply IH, f_equal].
    destruct x as [c|]; simpl; [|by apply IH, f_equal].
    destruct (implements TError (ctype c)); by simpl.
Qed.

Lemma same_result_refl (r : outcome (slice * option error)) : same_result r r.
Proof. by destruct r as [[s e]|p]. Qed.

Lemma loop_elems (fs : list object) (i i' o o' : slice) :
  elems i = elems i' → elems o = elems o' →
  fst (loop fs i o) = fst (loop fs i' o')
  ∧ same_result (snd (loop fs i o)) (snd (loop fs i' o')).
Proof.
  revert i i' o o'. induction fs as [|fn fs IH]; intros i i' o o' Hi Ho; [done|].
  simpl. unfold iteration. destruct fn as [|c|f]; simpl; [done..|].
  rewrite <- (arguments_elems f i i' Hi).
  destruct (arguments f i) as [[e|in_]|]; simpl; [done| |done].
  destruct (Call_checks f in_) as [code|]; simpl; [|done].
  destruct (code in_) as [out|]; simpl; [|done].
  pose proof (store_elems out o o' Ho) as Hst.
  destruct (store out o) as [[s|e]|], (store out o') as [[s'|e']|];
    simpl in *; try done.
  - destruct (IH s s' (Some []) (Some []) Hst eq_refl) as [Hc Hr].
    destruct (loop fs s (Some [])), (loop fs s' (Some [])). simpl in *.
    by rewrite Hc.
  - by subst e'.
Qed.

(** A run that ends without an error has gone through every stage. *)
Lemma loop_success_through (fs : list object) (i o res : slice) :
  snd (loop fs i o) = Ok (res, None) →
  ∃ o', through fs i o = Some (res, o').
Proof.
  revert i o. induction fs as [|fn fs IH]; intros i o; simpl.
  - intros [= <-]. by exists o.
  - destruct (iteration fn i o) as [calls [[i1 o1|res1 err1]|pn]] eqn:Hit;
      simpl; [| |done].
    + specialize (IH i1 o1). by destruct (loop fs i1 o1).
    + intros [= -> ->].
      assert (Hr : snd (iteration fn i o) = Ok (Return res None)) by by rewrite Hit.
      by apply iteration_Return in Hr as (_ & f & e & _ & [=] & _).
Qed.

(** X11. A Pipe can be run in two parts.  When the stages [fs1] run on the
    arguments without an error and return [mid], running [fs1 ++ fs2] on the
    arguments makes the calls of [fs1] followed by those of [fs2] on [mid],
    and ends as [fs2] on [mid] does: same outputs, element for element, same
    error, same panic. *)
Theorem Execute_app (fs1 fs2 : list object) (args mid : slice) :
  Execute (mkPipe fs1) args = Ok (mid, None) →
  invocations (mkPipe (fs1 ++ fs2)) args
  = invocations (mkPipe fs1) args ++ invocations (mkPipe fs2) mid
  ∧ same_result (Execute (mkPipe (fs1 ++ fs2)) args)
                (Execute (mkPipe fs2) mid).
Proof.
  intros H. destruct (loop_success_through _ _ _ _ H) as [o' Hth].
  destruct (Execute_through fs1 fs2 _ _ _ Hth) as [-> ->].
  assert (Ho' : elems o' = elems None).
  { by apply (through_outputs_empty fs1 args None mid o'). }
  destruct (loop_elems fs2 mid mid o' None eq_refl Ho') as [Hc Hr].
  unfold invocations, Execute, run, calls_of. simpl. by rewrite Hc.
Qed.

Lemma Execute_app_witness :
  invocations (mkPipe ([Fn PipeTest.fn1] ++ [Fn PipeTest.fn2; Fn PipeTest.fn3]))
    (Some [PipeTest.int 10; PipeTest.float64 3])
  = invocations (mkPipe [Fn PipeTest.fn1])
      (Some [PipeTest.int 10; PipeTest.float64 3])
    ++ invocations (mkPipe [Fn PipeTest.fn2; Fn PipeTest.fn3])
         (Some [PipeTest.int 3; None])
  ∧ same_result
      (Execute (mkPipe ([Fn PipeTest.fn1] ++ [Fn PipeTest.fn2; Fn PipeTest.fn3]))
         (Some [PipeTest.int 10; PipeTest.float64 3]))
      (Execute (mkPipe [Fn PipeTest.fn2; Fn PipeTest.fn3])
         (Some [PipeTest.int 3; None])).
Proof.
  apply (Execute_app [Fn PipeTest.fn1] [Fn PipeTest.fn2; Fn PipeTest.fn3]
           (Some [PipeTest.int 10; PipeTest.float64 3])
           (Some [PipeTest.int 3; None])).
  reflexivity.
Defined.

(** After at least one stage, [outputs] is the empty slice literal of line
    110, not nil. *)
Lemma through_outputs_literal (pre : list object) (i o i' o' : slice) :
  pre ≠ [] → through pre i o = Some (i', o') → o' = Some [].
Proof.
  assert (Hlit : ∀ fs i1, through fs i1 (Some []) = Some (i', o') → o' = Some []).
  { induction fs as [|fn fs IH]; intros i1; simpl; [by intros [= _ <-]|].
    destruct (snd (iteration fn i1 (Some []))) as [[i2 o2|res err]|pn] eqn:Hit;
      try done.
    apply iteration_Next in Hit as (_ & _ & _ & _ & _ & _ & _ & _ & _ & -> & _).
    apply IH. }
  destruct pre as [|fn pre]; [done|]. intros _. simpl.
  destruct (snd (iteration fn i o)) as [[i1 o1|res err]|pn] eqn:Hit; try done.
  apply iteration_Next in Hit as (_ & _ & _ & _ & _ & _ & _ & _ & _ & -> & _).
  apply Hlit.
Qed.

(** X12. A last stage that returns nothing leaves [Execute] with no outputs
    and no error; the outputs are the nil slice when the stage is the only
    one, and an empty slice that is not nil when stages ran before it. *)
Theorem last_stage_without_results (pre : list object) (f : func)
    (args inputs outputs : slice) (in_ : list Value)
    (code : list Value → outcome (list Value)) :
  through pre args None = Some (inputs, outputs) →
  arguments f inputs = Ok (inr in_) →
  Call_checks f in_ = Ok code → code in_ = Ok [] →
  Execute (mkPipe (pre ++ [Fn f])) args
  = Ok (if bool_decide (pre = []) then None else Some [], None).
Proof.
  intros Hth Ha Hc Hout.
  destruct (Execute_through pre [Fn f] _ _ _ Hth) as [-> _].
  simpl. rewrite (iteration_call f _ _ _ _ Ha Hc), Hout. simpl.
  case_bool_decide as Hpre.
  - subst pre. simpl in Hth. by injection Hth as <- <-.
  - by rewrite (through_outputs_literal pre _ _ _ _ Hpre Hth).
Qed.

Lemma last_stage_without_results_witness :
  Execute (mkPipe ([Fn PipeTest.fn2] ++ [Fn PipeTest.fn_void]))
    (Some [PipeTest.int 4])
  = Ok (if bool_decide ([Fn PipeTest.fn2] = []) then None else Some [], None).
Proof.
  apply (last_stage_without_results [Fn PipeTest.fn2] PipeTest.fn_void
           (Some [PipeTest.int 4]) (Some [PipeTest.str "even"]) (Some []) []
           (default (fun _ => Ok []) (fn_code PipeTest.fn_void)));
    reflexivity.
Defined.

(** *** Edge cases of a stage *)

(** X13. [New] and [Add] test the kind of a candidate only, so they accept
    the nil function value; when the execution reaches it with enough current
    values (as many as parameters, or more with no nil among the first), the
    reflective call panics. *)
Theorem nil_function_is_accepted_and_panics (p : Pipe) (pre post : list object)
    (f : func) (args inputs outputs : slice) :
  fn_code f = None →
  through pre args None = Some (inputs, outputs) →
  len inputs = NumIn f
  ∨ (NumIn f < len inputs
     ∧ Forall (fun x => x ≠ None) (take (NumIn f) (elems inputs))) →
  Add p (Fn f) = Ok (mkPipe (funcs p ++ [Fn f]), None)
  ∧ Execute (mkPipe (pre ++ Fn f :: post)) args = Panic CallOfNilFunction.
Proof.
  intros Hnil Hth Hlen. split; [done|].
  destruct (Execute_through pre (Fn f :: post) _ _ _ Hth) as [-> _].
  assert (Ha : ∃ in_, arguments f inputs = Ok (inr in_)).
  { destruct Hlen as [Heq | [Hlt Hnn]].
    - eexists. by apply arguments_exact.
    - eexists. rewrite arguments_surplus by done.
      replace (forallb _ _) with true; [done|]. symmetry.
      apply forallb_forall. intros x Hx. apply bool_decide_eq_true_2.
      rewrite Forall_forall in Hnn. by apply Hnn, list_elem_of_In. }
  destruct Ha as [in_ Ha].
  assert (Hc : Call_checks f in_ = Panic CallOfNilFunction).
  { unfold Call_checks. by rewrite Hnil. }
  simpl. by rewrite (iteration_call_panics f _ _ _ _ Ha Hc).
Qed.

Lemma nil_function_is_accepted_and_panics_witness :
  Add PipeTest.p (Fn PipeTest.fn_nil)
  = Ok (mkPipe (funcs PipeTest.p ++ [Fn PipeTest.fn_nil]), None)
  ∧ Execute (mkPipe ([] ++ Fn PipeTest.fn_nil :: [Fn PipeTest.fn3]))
      (Some [PipeTest.int 1])
    = Panic CallOfNilFunction.
Proof.
  apply (nil_function_is_accepted_and_panics PipeTest.p [] [Fn PipeTest.fn3]
           PipeTest.fn_nil (Some [PipeTest.int 1]) (Some [PipeTest.int 1]) None).
  - reflexivity.
  - reflexivity.
  - left. reflexivity.
Defined.

(** X14. The failure is recognised by the name of the result type alone.  A
    result whose type is a defined type named [error] of a kind without nil
    (an [int], a [string]) makes [Execute] panic in [IsNil], whatever the
    value, once the results before it have been stored. *)
Theorem result_type_named_error_without_nil_panics (pre post : list object)
    (f : func) (args inputs outputs : slice) (in_ l1 l2 : list Value)
    (code : list Value → outcome (list Value)) (t : rtype) (d : data) :
  through pre args None = Some (inputs, outputs) →
  arguments f inputs = Ok (inr in_) →
  Call_checks f in_ = Ok code → code in_ = Ok (l1 ++ Val t d :: l2) →
  forallb silent l1 = true →
  Name t = "error" → nillable (Kind t) = false →
  Execute (mkPipe (pre ++ Fn f :: post)) args = Panic IsNilOfNonNillable.
Proof.
  intros Hth Ha Hc Hout Hl1 Hname Hkind.
  destruct (Execute_through pre (Fn f :: post) _ _ _ Hth) as [-> _].
  simpl. rewrite (iteration_call f _ _ _ _ Ha Hc), Hout. simpl.
  rewrite store_silent_prefix by done. simpl.
  by rewrite (bool_decide_eq_true_2 _ Hname), Hkind.
Qed.

Lemma result_type_named_error_without_nil_panics_witness :
  Execute (mkPipe ([] ++ Fn PipeTest.fn_shadow :: [Fn PipeTest.fn2]))
    (Some [PipeTest.int 5])
  = Panic IsNilOfNonNillable.
Proof.
  apply (result_type_named_error_without_nil_panics [] [Fn PipeTest.fn2]
           PipeTest.fn_shadow (Some [PipeTest.int 5]) (Some [PipeTest.int 5])
           None [Val TInt (DInt 5)] [Val TInt (DInt 5)] []
           (default (fun _ => Ok []) (fn_code PipeTest.fn_shadow))
           PipeTest.shadow_error (DInt 0));
    reflexivity.
Defined.



(** X16. A stage without parameters takes whatever current values there are:
    nothing is tested, not even nil, and the stage is called on no
    argument. *)
Theorem stage_without_parameters_is_always_called (pre post : list object)
    (f : func) (code : list Value → outcome (list Value))
    (args inputs outputs : slice) :
  through pre args None = Some (inputs, outputs) →
  NumIn f = 0 → fn_code f = Some code →
  arguments f inputs = Ok (inr [])
  ∧ ∃ later, invocations (mkPipe (pre ++ Fn f :: post)) args
             = calls_of pre args None ++ Invoke f [] :: later.
Proof.
  intros Hth Hn Hcode.
  destruct (Execute_through pre (Fn f :: post) _ _ _ Hth) as [_ ->].
  assert (Ha : arguments f inputs = Ok (inr [])).
  { destruct (decide (len inputs = 0)) as [H0|H0].
    - rewrite arguments_exact by lia.
      unfold len in H0. by rewrite (nil_length_inv _ H0).
    - rewrite arguments_surplus by lia. by rewrite Hn. }
  assert (Hc : Call_checks f [] = Ok code).
  { unfold Call_checks, variadic_elem, NumIn in *.
    by rewrite Hcode, (nil_length_inv _ Hn). }
  split; [done|].
  destruct (loop_calls_head f post inputs outputs _ _ Ha Hc) as [later ->].
  by exists later.
Qed.

Lemma stage_without_parameters_is_always_called_witness :
  arguments PipeTest.fn_void (Some [None; PipeTest.int 1]) = Ok (inr [])
  ∧ ∃ later, invocations (mkPipe ([] ++ Fn PipeTest.fn_void :: []))
               (Some [None; PipeTest.int 1])
             = calls_of [] (Some [None; PipeTest.int 1]) None
               ++ Invoke PipeTest.fn_void [] :: later.
Proof.
  apply (stage_without_parameters_is_always_called [] [] PipeTest.fn_void
           (default (fun _ => Ok []) (fn_code PipeTest.fn_void))
           (Some [None; PipeTest.int 1]) (Some [None; PipeTest.int 1]) None);
    reflexivity.
Defined.

(** X17. [Execute] does not recover from a panic of a stage: the panic is the
    outcome of [Execute], and the panicking call is the last one made. *)
Theorem stage_panic_propagates (pre post : list object) (f : func)
    (args inputs outputs : slice) (in_ : list Value)
    (code : list Value → outcome (list Value)) (pn : panic) :
  through pre args None = Some (inputs, outputs) →
  arguments f inputs = Ok (inr in_) →
  Call_checks f in_ = Ok code → code in_ = Panic pn →
  Execute (mkPipe (pre ++ Fn f :: post)) args = Panic pn
  ∧ invocations (mkPipe (pre ++ Fn f :: post)) args
    = calls_of pre args None ++ [Invoke f in_].
Proof.
  intros Hth Ha Hc Hout.
  destruct (Execute_through pre (Fn f :: post) _ _ _ Hth) as [-> ->].
  simpl. by rewrite (iteration_call f _ _ _ _ Ha Hc), Hout.
Qed.

Lemma stage_panic_propagates_witness :
  Execute (mkPipe ([] ++ Fn PipeTest.fn1 :: [Fn PipeTest.fn2]))
    (Some [PipeTest.int 10; PipeTest.float64 (1 # 2)])
  = Panic (StagePanic "integer divide by zero")
  ∧ invocations (mkPipe ([] ++ Fn PipeTest.fn1 :: [Fn PipeTest.fn2]))
      (Some [PipeTest.int 10; PipeTest.float64 (1 # 2)])
    = calls_of [] (Some [PipeTest.int 10; PipeTest.float64 (1 # 2)]) None
      ++ [Invoke PipeTest.fn1 [Val TInt (DInt 10); Val TFloat64 (DFloat64 (1 # 2))]].
Proof.
  apply (stage_panic_propagates [] [Fn PipeTest.fn2] PipeTest.fn1
           (Some [PipeTest.int 10; PipeTest.float64 (1 # 2)])
           (Some [PipeTest.int 10; PipeTest.float64 (1 # 2)]) None
           [Val TInt (DInt 10); Val TFloat64 (DFloat64 (1 # 2))]
           (default (fun _ => Ok []) (fn_code PipeTest.fn1)));
    reflexivity.
Defined.
